(** * Parking_CQ: the circular queue behind the parking visualisers

    A shallow embedding of the [CircularQueue] classes of [app.py] and
    [improved_app.py].  A queue object is a record of its four attributes;
    a method is a computation in a small state-and-exception monad over that
    record, so that a [raise] in the middle of a method keeps whatever the
    method had already written.  Python integers are [Z]; Python lists are
    Rocq lists indexed the Python way (negative indices count from the end,
    anything else out of range raises [IndexError]). *)

From stdpp Require Import base list strings pretty.
From Stdlib Require Import ZArith Lia.

Local Open Scope Z_scope.

(** ** Values stored in the queue *)

(** The dictionary [{'id': car_id, 'entry': datetime.now()}] built by
    [park_car]; the timestamp is an opaque integer here. *)
Record car := Car { car_id : string; entry : Z }.

(** What a cell of [self.data] holds: [None] or a car record. *)
Abbreviation slot := (option car).

#[global] Instance car_eq_dec : EqDecision car.
Proof. solve_decision. Defined.

(** ** The queue object *)

Record CircularQueue := Queue {
  capacity : Z;
  data : list slot;
  front : Z;
  size : Z
}.

(** ** Exceptions and the method monad *)

Inductive exn :=
  | OverflowError (msg : string)
  | IndexError (msg : string)
  | ZeroDivisionError.

Inductive exn_class := COverflowError | CIndexError | CZeroDivisionError.

Definition class_of (e : exn) : exn_class :=
  match e with
  | OverflowError _ => COverflowError
  | IndexError _ => CIndexError
  | ZeroDivisionError => CZeroDivisionError
  end.

Inductive res (A : Type) :=
  | Ok (a : A)
  | Raise (e : exn).
Arguments Ok {A} a.
Arguments Raise {A} e.

(** A method body: reads and writes [self], then returns or raises. *)
Definition M (A : Type) : Type := CircularQueue → res A * CircularQueue.

Definition ret {A} (a : A) : M A := λ q, (Ok a, q).
Definition raise {A} (e : exn) : M A := λ q, (Raise e, q).
Definition bind {A B} (m : M A) (k : A → M B) : M B :=
  λ q, match m q with
       | (Ok a, q') => k a q'
       | (Raise e, q') => (Raise e, q')
       end.
Definition get : M CircularQueue := λ q, (Ok q, q).
Definition lift {A} (r : res A) : M A := λ q, (r, q).

Notation "'let*' x ':=' m 'in' k" := (bind m (λ x, k))
  (at level 10, x name, m at level 100, k at level 200).
Notation "m ';;' k" := (bind m (λ _, k))
  (at level 100, k at level 200, right associativity).

(** Attribute assignments [self.x = v]. *)
Definition set_capacity (v : Z) : M unit :=
  λ q, (Ok tt, Queue v (data q) (front q) (size q)).
Definition set_data (v : list slot) : M unit :=
  λ q, (Ok tt, Queue (capacity q) v (front q) (size q)).
Definition set_front (v : Z) : M unit :=
  λ q, (Ok tt, Queue (capacity q) (data q) v (size q)).
Definition set_size (v : Z) : M unit :=
  λ q, (Ok tt, Queue (capacity q) (data q) (front q) v).

(** ** Python primitives *)

(** [a % b]: floor modulus, [ZeroDivisionError] when [b] is zero. *)
Definition py_mod (a b : Z) : res Z :=
  if b =? 0 then Raise ZeroDivisionError else Ok (a mod b).

(** Position in a list of length [n] that the Python index [i] denotes. *)
Definition norm_index (n : nat) (i : Z) : option nat :=
  if (0 <=? i) && (i <? Z.of_nat n) then Some (Z.to_nat i)
  else if (- Z.of_nat n <=? i) && (i <? 0) then Some (Z.to_nat (Z.of_nat n + i))
  else None.

(** [l[i]] *)
Definition getitem (l : list slot) (i : Z) : res slot :=
  match norm_index (length l) i with
  | Some k =>
      match l !! k with
      | Some v => Ok v
      | None => Raise (IndexError "list index out of range")
      end
  | None => Raise (IndexError "list index out of range")
  end.

(** [l[i] = v] *)
Definition setitem (l : list slot) (i : Z) (v : slot) : res (list slot) :=
  match norm_index (length l) i with
  | Some k => Ok (<[k := v]> l)
  | None => Raise (IndexError "list assignment index out of range")
  end.

(** [range(n)] *)
Definition range (n : Z) : list Z := Z.of_nat <$> seq 0 (Z.to_nat n).

(** [[None] * n] *)
Definition none_list (n : Z) : list slot := replicate (Z.to_nat n) None.

(** Truth value of a cell: [None] is false, a two-key dictionary is true. *)
Definition truthy (s : slot) : bool :=
  match s with Some _ => true | None => false end.

(** [item.get('id') == key] for a cell already known to be a record. *)
Definition id_is (key : string) (s : slot) : bool :=
  match s with Some c => bool_decide (car_id c = key) | None => false end.

(** ** Loops *)

(** How one iteration of a [for] body ends. *)
Inductive ctl (R : Type) :=
  | Next
  | Break
  | Return (r : R).
Arguments Next {R}.
Arguments Break {R}.
Arguments Return {R} r.

(** [for x in l: body], where the body may [break] or leave with a value;
    the result is that value, or [None] when the loop ran out or broke. *)
Fixpoint for_in {A R} (l : list A) (body : A → M (ctl R)) : M (option R) :=
  match l with
  | [] => ret None
  | x :: l' =>
      let* c := body x in
      match c with
      | Next => for_in l' body
      | Break => ret None
      | Return r => ret (Some r)
      end
  end.

(** [out = []; for x in l: out.append(f(x))] *)
Fixpoint for_append {A B} (l : list A) (f : A → M B) : M (list B) :=
  match l with
  | [] => ret []
  | x :: l' =>
      let* y := f x in
      let* ys := for_append l' f in
      ret (y :: ys)
  end.

(** ** [improved_app.py] *)

Module Improved.

(** [__init__(self, capacity=8)] *)
Definition init (cap : Z) : CircularQueue :=
  let c := Z.max 4 cap in
  Queue c (none_list c) 0 0.

Definition default_capacity : Z := 8.

Definition is_full : M bool :=
  let* self := get in ret (size self =? capacity self).

Definition is_empty : M bool :=
  let* self := get in ret (size self =? 0).

Definition enqueue (item : slot) : M unit :=
  let* full := is_full in
  if full then raise (OverflowError "Queue full") else
  let* self := get in
  let* idx := lift (py_mod (front self + size self) (capacity self)) in
  let* d := lift (setitem (data self) idx item) in
  set_data d ;;
  let* self := get in
  set_size (size self + 1).

Definition dequeue : M slot :=
  let* empty := is_empty in
  if empty then raise (IndexError "Queue empty") else
  let* self := get in
  let* item := lift (getitem (data self) (front self)) in
  let* d := lift (setitem (data self) (front self) None) in
  set_data d ;;
  let* self := get in
  let* f := lift (py_mod (front self + 1) (capacity self)) in
  set_front f ;;
  let* self := get in
  set_size (size self - 1) ;;
  ret item.

Definition content_list : M (list slot) :=
  let* self := get in
  for_append (range (size self)) (λ i,
    let* self := get in
    let* idx := lift (py_mod (front self + i) (capacity self)) in
    lift (getitem (data self) idx)).

Definition find_index_by_id (key : string) : M (option Z) :=
  let* self := get in
  for_in (range (size self)) (λ i,
    let* self := get in
    let* idx := lift (py_mod (front self + i) (capacity self)) in
    let* item := lift (getitem (data self) idx) in
    if truthy item && id_is key item then ret (Return idx) else ret Next).

Definition remove_by_index (idx_to_remove : Z) : M bool :=
  let* self := get in
  if size self =? 0 then ret false else
  let* items := content_list in
  let* rel := for_in (range (Z.of_nat (length items))) (λ i,
    let* self := get in
    let* idx := lift (py_mod (front self + i) (capacity self)) in
    if idx =? idx_to_remove then ret (Return i) else ret Next) in
  match rel with
  | None => ret false
  | Some rel =>
      let new_items :=
        take (Z.to_nat rel) items ++ drop (Z.to_nat (rel + 1)) items in
      let* self := get in
      set_data (none_list (capacity self)) ;;
      set_front 0 ;;
      set_size 0 ;;
      for_in new_items (λ it, enqueue it ;; ret (@Next unit)) ;;
      ret true
  end.

Definition resize_preserve (new_capacity : Z) : M unit :=
  let* items := content_list in
  set_capacity (Z.max 4 new_capacity) ;;
  let* self := get in
  set_data (none_list (capacity self)) ;;
  set_front 0 ;;
  set_size 0 ;;
  for_in items (λ it,
    let* full := is_full in
    if full then ret (@Break unit) else
    enqueue it ;; ret Next) ;;
  ret tt.

End Improved.

(** ** [app.py] *)

Module Basic.

Definition init (cap : Z) : CircularQueue :=
  let c := Z.max 4 cap in
  Queue c (none_list c) 0 0.

Definition default_capacity : Z := 8.

Definition is_full : M bool :=
  let* self := get in ret (size self =? capacity self).

Definition is_empty : M bool :=
  let* self := get in ret (size self =? 0).

Definition enqueue (item : slot) : M unit :=
  let* full := is_full in
  if full then raise (OverflowError "Queue is full") else
  let* self := get in
  let* idx := lift (py_mod (front self + size self) (capacity self)) in
  let* d := lift (setitem (data self) idx item) in
  set_data d ;;
  let* self := get in
  set_size (size self + 1).

Definition dequeue : M slot :=
  let* empty := is_empty in
  if empty then raise (IndexError "Queue is empty") else
  let* self := get in
  let* item := lift (getitem (data self) (front self)) in
  let* d := lift (setitem (data self) (front self) None) in
  set_data d ;;
  let* self := get in
  let* f := lift (py_mod (front self + 1) (capacity self)) in
  set_front f ;;
  let* self := get in
  set_size (size self - 1) ;;
  ret item.

Definition content_list : M (list slot) :=
  let* self := get in
  for_append (range (size self)) (λ i,
    let* self := get in
    let* idx := lift (py_mod (front self + i) (capacity self)) in
    lift (getitem (data self) idx)).

End Basic.

(** ** The data-model invariants *)

(** Absolute position [j] lies in the logical window: it is
    [(front + i) mod capacity] for some relative position [0 ≤ i < size]. *)
Definition in_window (q : CircularQueue) (j : Z) : Prop :=
  ∃ i, 0 ≤ i < size q ∧ j = (front q + i) mod capacity q.

(** Absolute position [j] holds a record. *)
Definition occupied (q : CircularQueue) (j : Z) : Prop :=
  0 ≤ j ∧ ∃ c, data q !! Z.to_nat j = Some (Some c).

(** Number of cells of the array that hold a record. *)
Definition occupied_count (d : list slot) : Z :=
  Z.of_nat (length (filter (λ s : slot, is_Some s) d)).

Record inv (q : CircularQueue) : Prop := {
  inv_capacity : 4 ≤ capacity q;
  inv_length : Z.of_nat (length (data q)) = capacity q;
  inv_front : 0 ≤ front q < capacity q;
  inv_size : 0 ≤ size q ≤ capacity q;
  inv_window : ∀ j, occupied q j ↔ in_window q j;
  inv_empty : ∀ j, 0 ≤ j < capacity q → ¬ in_window q j →
              data q !! Z.to_nat j = Some None;
  inv_count : occupied_count (data q) = size q;
  inv_single : ∀ j c1 c2, data q !! j = Some (Some c1) →
               data q !! j = Some (Some c2) → c1 = c2
}.

(** The same invariants as a check that runs: cell [j] is occupied exactly
    when its distance from [front], going round the ring, is below [size]. *)
Fixpoint cells_ok (q : CircularQueue) (j : Z) (d : list slot) : bool :=
  match d with
  | [] => true
  | s :: d' =>
      Bool.eqb (truthy s) ((j - front q) mod capacity q <? size q)
      && cells_ok q (j + 1) d'
  end.

Definition valid (q : CircularQueue) : bool :=
  (4 <=? capacity q) && (Z.of_nat (length (data q)) =? capacity q)
  && (0 <=? front q) && (front q <? capacity q)
  && (0 <=? size q) && (size q <=? capacity q)
  && cells_ok q 0 (data q).

(** [repr q l]: the queue is well formed and its logical sequence, front to
    rear, is [l].  Cell [j] holds the record at relative position
    [(j - front) mod capacity] of [l], or nothing when [l] is shorter. *)
Definition repr (q : CircularQueue) (l : list car) : Prop :=
  4 ≤ capacity q ∧
  Z.of_nat (length (data q)) = capacity q ∧
  0 ≤ front q < capacity q ∧
  size q = Z.of_nat (length l) ∧
  size q ≤ capacity q ∧
  ∀ j, 0 ≤ j < capacity q →
       data q !! Z.to_nat j = Some (l !! Z.to_nat ((j - front q) mod capacity q)).

(** The records of the logical window read straight off the array. *)
Definition contents (q : CircularQueue) : list car :=
  omap (λ i, mjoin (data q !! Z.to_nat ((front q + i) mod capacity q)))
       (range (size q)).

(** ** Calls from the presentation layer *)

Inductive op :=
  | Enqueue (c : car)
  | Dequeue
  | RemoveByIndex (idx : Z)
  | ResizePreserve (new_capacity : Z).

(** The queue a call leaves behind, whether it returned or raised. *)
Definition step (o : op) (q : CircularQueue) : CircularQueue :=
  match o with
  | Enqueue c => snd (Improved.enqueue (Some c) q)
  | Dequeue => snd (Improved.dequeue q)
  | RemoveByIndex idx => snd (Improved.remove_by_index idx q)
  | ResizePreserve n => snd (Improved.resize_preserve n q)
  end.

(** The queue after each call of a sequence of calls. *)
Fixpoint trace (ops : list op) (q : CircularQueue) : list CircularQueue :=
  match ops with
  | [] => []
  | o :: ops' => let q' := step o q in q' :: trace ops' q'
  end.

(** [n] calls of [dequeue] in a row, collecting what they return. *)
Definition dequeue_n (n : nat) : M (list slot) :=
  for_append (replicate n tt) (λ _, Improved.dequeue).

(** One call of [enqueue] per record, in order. *)
Definition enqueue_all (l : list car) : M unit :=
  for_in l (λ c, Improved.enqueue (Some c) ;; ret (@Next unit)) ;; ret tt.

(** ** Sample queues *)

Definition car_a : car := Car "KA01AB1234" 10.
Definition car_b : car := Car "KA02CD5678" 20.
Definition car_c : car := Car "KA01AB1234" 30.
Definition car_d : car := Car "KA04GH3456" 40.
Definition car_e : car := Car "KA05IJ7890" 50.

(** Three cars in a ring of four, the window wrapping past the end. *)
Definition wrapped_queue : CircularQueue :=
  Queue 4 [Some car_c; None; Some car_a; Some car_b] 2 3.

(** Five cars in a ring of six. *)
Definition busy_queue : CircularQueue :=
  Queue 6 [Some car_d; Some car_e; None; Some car_a; Some car_b; Some car_c]
        3 5.

(** A full ring of four. *)
Definition full_queue : CircularQueue :=
  Queue 4 [Some car_c; Some car_d; Some car_a; Some car_b] 2 4.

(** An empty ring of four whose [front] has moved on. *)
Definition drained_queue : CircularQueue :=
  Queue 4 [None; None; None; None] 2 0.

(** ** Comparing the two variants *)

(** Two outcomes agree when they leave the same queue and either return the
    same value or raise exceptions of the same class. *)
Definition agree {A} (x y : res A * CircularQueue) : Prop :=
  x.2 = y.2 ∧
  match x.1, y.1 with
  | Ok a, Ok b => a = b
  | Raise e1, Raise e2 => class_of e1 = class_of e2
  | _, _ => False
  end.

(** ** The windows *)

(** The calls a handler makes into Tk, in the order it makes them.  What the
    user answers to a dialog is an argument of the handler, and so is the
    clock reading a handler takes.  Drawing on the canvas is recorded, not
    carried out; of the two messages that spell out a duration only the car
    and the clock reading are kept. *)
Inductive tk_call :=
  | showwarning (title message : string)
  | showinfo (title message : string)
  | showerror (title message : string)
  | showinfo_exited (title : string) (item : car) (now : Z)
  | askstring (title prompt : string)
  | askinteger (title prompt : string) (minvalue : Z)
  | askyesno (title message : string)
  | draw_slots
  | redraw_cars
  | label_config (label text : string)
  | details_set (text : string)
  | details_set_car (abs_idx : Z) (item : car) (now : Z)
  | animate_highlight (idx : Z).

(** An application object: its queue and the Tk calls made so far. *)
Record App := { queue : CircularQueue; tk : list tk_call }.

(** A handler body: runs on the application, returns or raises. *)
Definition UI (X : Type) : Type := App → res X * App.

Definition ui_ret {X} (x : X) : UI X := λ a, (Ok x, a).
Definition ui_bind {X Y} (m : UI X) (k : X → UI Y) : UI Y :=
  λ a, match m a with
       | (Ok x, a') => k x a'
       | (Raise e, a') => (Raise e, a')
       end.

Declare Scope ui_scope.
Delimit Scope ui_scope with ui.
Notation "'let*' x ':=' m 'in' k" := (ui_bind m (λ x, k))
  (at level 10, x name, m at level 100, k at level 200) : ui_scope.
Notation "m ';;' k" := (ui_bind m (λ _, k))
  (at level 100, k at level 200, right associativity) : ui_scope.

(** A call into Tk. *)
Definition call (c : tk_call) : UI unit :=
  λ a, (Ok tt, {| queue := queue a; tk := tk a ++ [c] |}).

(** A method call on [self.queue]. *)
Definition on_queue {X} (m : M X) : UI X :=
  λ a, let (r, q') := m (queue a) in (r, {| queue := q'; tk := tk a |}).

(** A method call on a queue held in a local variable. *)
Definition on_local {X} (m : M X) (obj : CircularQueue)
  : UI (X * CircularQueue) :=
  λ a, match m obj with
       | (Ok x, obj') => (Ok (x, obj'), a)
       | (Raise e, _) => (Raise e, a)
       end.

Definition get_queue : UI CircularQueue := λ a, (Ok (queue a), a).

(** [self.queue = q] *)
Definition set_queue (q : CircularQueue) : UI unit :=
  λ a, (Ok tt, {| queue := q; tk := tk a |}).

Definition ui_lift {X} (r : res X) : UI X := λ a, (r, a).

(** [try: body / except OverflowError: handler] *)
Definition except_OverflowError (body handler : UI unit) : UI unit :=
  λ a, match body a with
       | (Raise (OverflowError _), a') => handler a'
       | other => other
       end.

(** [if not car_id: return], for what [askstring] gives back: [None] when
    the dialog is cancelled, else the text typed. *)
Definition typed (answer : option string) : option string :=
  match answer with
  | Some s => if bool_decide (s = "") then None else Some s
  | None => None
  end.

(** ** [ImprovedApp] *)

Module ImprovedApp.

Definition update_dashboard : UI unit :=
  (let* q := get_queue in
   let occ := size q in
   let cap := capacity q in
   let* empty := on_queue Improved.is_empty in
   let front_text := if negb empty then pretty (front q) else "-" in
   let* empty := on_queue Improved.is_empty in
   let* rear_text :=
     if negb empty then
       let* rear := ui_lift (py_mod (front q + size q - 1) (capacity q)) in
       ui_ret (pretty rear)
     else ui_ret "-" in
   let free := cap - occ in
   call (label_config "occ_label"
           ("Occupancy: " +:+ pretty occ +:+ " / " +:+ pretty cap)) ;;
   call (label_config "ptr_label"
           ("Front: " +:+ front_text +:+ "    Rear: " +:+ rear_text)) ;;
   call (label_config "free_label" ("Free Slots: " +:+ pretty free)) ;;
   call redraw_cars)%ui.

(** The application once [__init__] has run (building the widgets is not
    recorded). *)
Definition init : res unit * App :=
  (call draw_slots ;; update_dashboard)%ui
    {| queue := Improved.init 8; tk := [] |}.

Definition on_slot_click (abs_idx : Z) (now : Z) : UI unit :=
  (let* q := get_queue in
   let* item := ui_lift (getitem (data q) abs_idx) in
   match item with
   | None =>
       call (details_set ("Slot #" +:+ pretty abs_idx +:+ ": empty."))
   | Some c =>
       call (details_set_car abs_idx c now) ;;
       call (animate_highlight abs_idx)
   end)%ui.

Definition park_car (answer : option string) (now : Z) : UI unit :=
  (let* full := on_queue Improved.is_full in
   if full then
     call (showwarning "Full" "Parking is full. Consider resizing.")
   else
   call (askstring "Car ID" "Enter Car ID (e.g. KA01AB1234):") ;;
   match typed answer with
   | None => ui_ret tt
   | Some car_id =>
       let entry := now in
       let record := Car car_id entry in
       except_OverflowError
         (on_queue (Improved.enqueue (Some record)) ;;
          call redraw_cars ;;
          update_dashboard)
         (call (showerror "Error" "Queue full"))
   end)%ui.

Definition exit_car (now : Z) : UI unit :=
  (let* empty := on_queue Improved.is_empty in
   if empty then call (showinfo "Empty" "Parking is empty.") else
   let* item := on_queue Improved.dequeue in
   match item with
   | Some c =>
       call (showinfo_exited "Car Exited" c now) ;;
       call redraw_cars ;;
       update_dashboard
   | None => ui_ret tt
   end)%ui.

Definition search_by_id (answer : option string) (now : Z) : UI unit :=
  (let* empty := on_queue Improved.is_empty in
   if empty then call (showinfo "Empty" "Parking empty.") else
   call (askstring "Search" "Enter car ID to search:") ;;
   match typed answer with
   | None => ui_ret tt
   | Some car_id =>
       let* idx := on_queue (Improved.find_index_by_id car_id) in
       match idx with
       | None =>
           call (showinfo "Not found" ("Car " +:+ car_id +:+ " not found."))
       | Some idx => on_slot_click idx now
       end
   end)%ui.

Definition remove_by_id (answer : option string) : UI unit :=
  (let* empty := on_queue Improved.is_empty in
   if empty then call (showinfo "Empty" "Parking empty.") else
   call (askstring "Remove" "Enter car ID to remove:") ;;
   match typed answer with
   | None => ui_ret tt
   | Some car_id =>
       let* idx := on_queue (Improved.find_index_by_id car_id) in
       match idx with
       | None =>
           call (showinfo "Not found" ("Car " +:+ car_id +:+ " not found."))
       | Some idx =>
           let* removed := on_queue (Improved.remove_by_index idx) in
           if removed then
             call (showinfo "Removed"
                     ("Car " +:+ car_id +:+ " removed from parking.")) ;;
             call redraw_cars ;;
             update_dashboard
           else call (showerror "Error" "Could not remove car.")
       end
   end)%ui.

Definition resize (answer : option Z) : UI unit :=
  (call (askinteger "Resize" "Enter new capacity (>=4):" 4) ;;
   match answer with
   | None => ui_ret tt
   | Some val =>
       on_queue (Improved.resize_preserve val) ;;
       call draw_slots ;;
       update_dashboard
   end)%ui.

Definition clear_all (confirmed : bool) : UI unit :=
  (call (askyesno "Confirm" "Clear all parked cars?") ;;
   if negb confirmed then ui_ret tt else
   let* q := get_queue in
   set_queue (Improved.init (capacity q)) ;;
   call draw_slots ;;
   update_dashboard)%ui.

End ImprovedApp.

(** ** [BasicApp] *)

Module BasicApp.

Definition update_dashboard : UI unit :=
  (let* q := get_queue in
   let occ := size q in
   let cap := capacity q in
   call (label_config "info_label"
           ("Occupancy: " +:+ pretty occ +:+ " / " +:+ pretty cap
            +:+ "  |  Front: " +:+ pretty (front q)
            +:+ "  |  Size: " +:+ pretty (size q))) ;;
   call redraw_cars)%ui.

Definition init : res unit * App :=
  (call draw_slots ;; update_dashboard)%ui
    {| queue := Basic.init 8; tk := [] |}.

Definition park_car (answer : option string) (now : Z) : UI unit :=
  (let* full := on_queue Basic.is_full in
   if full then
     call (showwarning "Full" "Parking full! Resize or remove a car.")
   else
   call (askstring "Car ID" "Enter car ID (e.g. KA01AB1234):") ;;
   match typed answer with
   | None => ui_ret tt
   | Some car_id =>
       let entry := Car car_id now in
       except_OverflowError
         (on_queue (Basic.enqueue (Some entry)))
         (call (showerror "Error" "Queue is full")) ;;
       call redraw_cars ;;
       update_dashboard
   end)%ui.

Definition exit_car (now : Z) : UI unit :=
  (let* empty := on_queue Basic.is_empty in
   if empty then call (showinfo "Empty" "Parking empty.") else
   let* item := on_queue Basic.dequeue in
   match item with
   | Some c => call (showinfo_exited "Car Exited" c now)
   | None => ui_ret tt
   end ;;
   call redraw_cars ;;
   update_dashboard)%ui.

(** The loop of [resize_capacity], which runs on the local [newq]. *)
Definition refill (old_items : list slot) : M (option unit) :=
  for_in old_items (λ it,
    let* full := Basic.is_full in
    if full then ret (@Break unit) else
    Basic.enqueue it ;; ret Next).

Definition resize_capacity (answer : option Z) : UI unit :=
  (call (askinteger "Resize" "Enter new capacity (>=4):" 4) ;;
   match answer with
   | None => ui_ret tt
   | Some val =>
       let* old_items := on_queue Basic.content_list in
       let* filled := on_local (refill old_items) (Basic.init val) in
       let newq := filled.2 in
       set_queue newq ;;
       call draw_slots ;;
       update_dashboard
   end)%ui.

Definition clear_all : UI unit :=
  (let* q := get_queue in
   set_queue (Basic.init (capacity q)) ;;
   call draw_slots ;;
   update_dashboard)%ui.

End BasicApp.

(** ** Button presses *)

Inductive action :=
  | ParkCar (answer : option string) (now : Z)
  | ExitCar (now : Z)
  | SearchById (answer : option string) (now : Z)
  | RemoveById (answer : option string)
  | Resize (answer : option Z)
  | ClearAll (confirmed : bool).

Definition improved_handler (act : action) : UI unit :=
  match act with
  | ParkCar answer now => ImprovedApp.park_car answer now
  | ExitCar now => ImprovedApp.exit_car now
  | SearchById answer now => ImprovedApp.search_by_id answer now
  | RemoveById answer => ImprovedApp.remove_by_id answer
  | Resize answer => ImprovedApp.resize answer
  | ClearAll confirmed => ImprovedApp.clear_all confirmed
  end.

Inductive basic_action :=
  | BasicParkCar (answer : option string) (now : Z)
  | BasicExitCar (now : Z)
  | BasicResize (answer : option Z)
  | BasicClearAll.

Definition basic_handler (act : basic_action) : UI unit :=
  match act with
  | BasicParkCar answer now => BasicApp.park_car answer now
  | BasicExitCar now => BasicApp.exit_car now
  | BasicResize answer => BasicApp.resize_capacity answer
  | BasicClearAll => BasicApp.clear_all
  end.

(** The outcome of every press of a session, one after the other; a handler
    that raises leaves the application as it then is, and the main loop goes
    on to the next press. *)
Fixpoint session {Act} (handler : Act → UI unit) (acts : list Act) (a : App)
  : list (res unit * App) :=
  match acts with
  | [] => []
  | act :: acts' =>
      let o := handler act a in o :: session handler acts' o.2
  end.

(** No error box among the calls. *)
Definition is_showerror (c : tk_call) : bool :=
  match c with showerror _ _ => true | _ => false end.

(** No error box in a list of calls. *)
Definition calm (cs : list tk_call) : bool :=
  forallb (λ c, negb (is_showerror c)) cs.

(** Number of empty cells of the array. *)
Definition free_cells (d : list slot) : Z :=
  Z.of_nat (length (filter (λ s : slot, s = None) d)).

(** ** Methods that only read *)

(** A method body that hands the queue back as it got it, whether it
    returns or raises. *)
Definition readonly {A} (m : M A) : Prop := ∀ q, (m q).2 = q.

(** ** Ring arithmetic *)

Lemma ring_add c f i :
  0 ≤ f < c → 0 ≤ i ≤ c →
  (f + i) mod c = if f + i <? c then f + i else f + i - c.
Proof.
  intros Hf Hi. destruct (Z.ltb_spec (f + i) c).
  - apply Z.mod_small. lia.
  - symmetry. apply (Z.mod_unique _ _ 1); lia.
Qed.

Lemma ring_sub c f j :
  0 ≤ f < c → 0 ≤ j < c →
  (j - f) mod c = if f <=? j then j - f else j - f + c.
Proof.
  intros Hf Hj. destruct (Z.leb_spec f j).
  - apply Z.mod_small. lia.
  - symmetry. apply (Z.mod_unique _ _ (-1)); lia.
Qed.

Lemma ring_range c a : 0 < c → 0 ≤ a mod c < c.
Proof. intros. apply Z.mod_pos_bound. lia. Qed.

(** ** Running method bodies *)

Lemma run_bind {A B} (m : M A) (k : A → M B) q a q' :
  m q = (Ok a, q') → bind m k q = k a q'.
Proof. intros E. unfold bind. by rewrite E. Qed.

Lemma run_bind_raise {A B} (m : M A) (k : A → M B) q e q' :
  m q = (Raise e, q') → bind m k q = (Raise e, q').
Proof. intros E. unfold bind. by rewrite E. Qed.

Lemma run_get {B} (k : CircularQueue → M B) q : bind get k q = k q q.
Proof. done. Qed.

Lemma run_ret {A B} (a : A) (k : A → M B) q : bind (ret a) k q = k a q.
Proof. done. Qed.

Lemma run_set_capacity {B} v (k : unit → M B) q :
  bind (set_capacity v) k q = k tt (Queue v (data q) (front q) (size q)).
Proof. done. Qed.

Lemma run_set_data {B} v (k : unit → M B) q :
  bind (set_data v) k q = k tt (Queue (capacity q) v (front q) (size q)).
Proof. done. Qed.

Lemma run_set_front {B} v (k : unit → M B) q :
  bind (set_front v) k q = k tt (Queue (capacity q) (data q) v (size q)).
Proof. done. Qed.

Lemma run_set_size {B} v (k : unit → M B) q :
  bind (set_size v) k q = k tt (Queue (capacity q) (data q) (front q) v).
Proof. done. Qed.

Ltac run :=
  repeat first
    [ rewrite run_get | rewrite run_ret | rewrite run_set_capacity
    | rewrite run_set_data | rewrite run_set_front | rewrite run_set_size ];
  cbn [capacity data front size].

(** ** Python primitives inside the array bounds *)

Lemma norm_index_in n i :
  0 ≤ i < Z.of_nat n → norm_index n i = Some (Z.to_nat i).
Proof.
  intros H. unfold norm_index.
  destruct (Z.leb_spec 0 i); [|lia].
  destruct (Z.ltb_spec i (Z.of_nat n)); [done|lia].
Qed.

Lemma getitem_in l i v :
  0 ≤ i < Z.of_nat (length l) → l !! Z.to_nat i = Some v → getitem l i = Ok v.
Proof. intros Hi Hv. unfold getitem. by rewrite norm_index_in, Hv. Qed.

Lemma setitem_in l i v :
  0 ≤ i < Z.of_nat (length l) → setitem l i v = Ok (<[Z.to_nat i := v]> l).
Proof. intros Hi. unfold setitem. by rewrite norm_index_in. Qed.

Lemma py_mod_pos a b : 0 < b → py_mod a b = Ok (a mod b).
Proof. intros H. unfold py_mod. destruct (Z.eqb_spec b 0); [lia|done]. Qed.

Lemma lookup_none_list n j :
  0 ≤ j < n → none_list n !! Z.to_nat j = Some None.
Proof. intros H. unfold none_list. apply lookup_replicate_2. lia. Qed.

Lemma length_none_list n : 0 ≤ n → Z.of_nat (length (none_list n)) = n.
Proof. intros H. unfold none_list. rewrite length_replicate. lia. Qed.

Lemma length_range n : length (range n) = Z.to_nat n.
Proof. unfold range. by rewrite length_fmap, length_seq. Qed.

Lemma lookup_range n (k : nat) :
  (k < Z.to_nat n)%nat → range n !! k = Some (Z.of_nat k).
Proof. intros H. unfold range. rewrite list_lookup_fmap, lookup_seq_lt; done. Qed.

Lemma elem_of_range n i : i ∈ range n ↔ 0 ≤ i < n.
Proof.
  unfold range. rewrite list_elem_of_fmap. split.
  - intros (k & -> & Hk). apply elem_of_seq in Hk. lia.
  - intros H. exists (Z.to_nat i). split; [lia|]. apply elem_of_seq. lia.
Qed.

(** ** Loops whose body leaves the queue alone *)

Lemma for_append_pure {A B} (g : A → B) (f : A → M B) l q :
  (∀ x, x ∈ l → f x q = (Ok (g x), q)) →
  for_append l f q = (Ok (g <$> l), q).
Proof.
  induction l as [|x l IH]; intros H; [done|].
  cbn [for_append]. unfold bind at 1.
  rewrite (H x) by apply list_elem_of_here.
  unfold bind at 1. rewrite IH; [done|].
  intros y Hy. apply H. by apply list_elem_of_further.
Qed.

(** A searching loop returns the image of the first element that passes. *)
Lemma for_in_search {A R} (P : A → Prop) `{∀ x, Decision (P x)}
    (h : A → R) (body : A → M (ctl R)) l q :
  (∀ x, x ∈ l →
        body x q = (Ok (if decide (P x) then Return (h x) else Next), q)) →
  for_in l body q = (Ok ((λ p, h p.2) <$> list_find P l), q).
Proof.
  induction l as [|x l IH]; intros Hb; [done|].
  cbn [for_in list_find]. unfold bind.
  rewrite (Hb x) by apply list_elem_of_here.
  destruct (decide (P x)); [done|].
  rewrite IH.
  - by destruct (list_find P l) as [[??]|].
  - intros y Hy. apply Hb. by apply list_elem_of_further.
Qed.

(** ** The representation and the methods *)

Section Repr.
Variables (q : CircularQueue) (l : list car).
Hypothesis R : repr q l.

Lemma repr_cell i :
  0 ≤ i < capacity q →
  data q !! Z.to_nat ((front q + i) mod capacity q) = Some (l !! Z.to_nat i).
Proof.
  destruct R as (Hc & Hlen & Hf & Hs & Hsc & Hd). intros Hi.
  rewrite Hd by (apply ring_range; lia). do 2 f_equal.
  rewrite (ring_add (capacity q)) by lia.
  destruct (Z.ltb_spec (front q + i) (capacity q));
    rewrite ring_sub by lia;
    [destruct (Z.leb_spec (front q) (front q + i))
    |destruct (Z.leb_spec (front q) (front q + i - capacity q))]; lia.
Qed.

Lemma repr_read i :
  0 ≤ i < capacity q →
  (let* self := get in
   let* idx := lift (py_mod (front self + i) (capacity self)) in
   lift (getitem (data self) idx)) q = (Ok (l !! Z.to_nat i), q).
Proof.
  intros Hi. pose proof (repr_cell i Hi) as Hcell.
  destruct R as (Hc & Hlen & Hf & Hs & Hsc & Hd).
  unfold bind, get, lift. rewrite py_mod_pos by lia.
  erewrite getitem_in; [done| |done].
  rewrite Hlen. apply ring_range. lia.
Qed.

Lemma repr_content_list :
  Improved.content_list q = (Ok (Some <$> l), q).
Proof.
  pose proof R as (Hc & Hlen & Hf & Hs & Hsc & Hd).
  unfold Improved.content_list. unfold bind at 1, get at 1. cbv beta iota.
  rewrite (for_append_pure (λ i, l !! Z.to_nat i)).
  - f_equal. f_equal. apply list_eq. intros k.
    rewrite !list_lookup_fmap.
    destruct (decide (k < length l)%nat) as [Hk|Hk].
    + rewrite lookup_range by lia. cbn. rewrite Nat2Z.id.
      destruct (lookup_lt_is_Some_2 l k Hk) as [c ->]. done.
    + rewrite (lookup_ge_None_2 l k) by lia.
      rewrite lookup_ge_None_2; [done|]. rewrite length_range. lia.
  - intros i Hi%elem_of_range. apply repr_read. lia.
Qed.

Lemma repr_basic_content_list :
  Basic.content_list q = (Ok (Some <$> l), q).
Proof. exact repr_content_list. Qed.

Lemma repr_enqueue c :
  size q < capacity q →
  ∃ q', Improved.enqueue (Some c) q = (Ok tt, q') ∧ repr q' (l ++ [c]) ∧
        capacity q' = capacity q ∧ front q' = front q.
Proof.
  destruct R as (Hc & Hlen & Hf & Hs & Hsc & Hd). intros Hlt.
  pose proof (ring_range (capacity q) (front q + size q) ltac:(lia)) as Hidx.
  unfold Improved.enqueue, Improved.is_full, bind, get, ret, lift.
  destruct (Z.eqb_spec (size q) (capacity q)) as [|_]; [lia|].
  rewrite py_mod_pos, setitem_in by lia. cbn.
  eexists. split; [done|]. split; [|done].
  unfold repr; cbn. rewrite length_insert, length_app. cbn.
  repeat split; try lia.
  intros j Hj.
  pose proof (ring_range (capacity q) (j - front q) ltac:(lia)) as Hk.
  destruct (decide (j = (front q + size q) mod capacity q)) as [->|Hne].
  - rewrite list_lookup_insert_eq by lia. f_equal.
    replace (((front q + size q) mod capacity q - front q) mod capacity q)
      with (Z.of_nat (length l)).
    + rewrite Nat2Z.id. by rewrite lookup_app_r, Nat.sub_diag.
    + rewrite (ring_add (capacity q)) by lia.
      destruct (Z.ltb_spec (front q + size q) (capacity q));
        rewrite ring_sub by lia;
        [destruct (Z.leb_spec (front q) (front q + size q))
        |destruct (Z.leb_spec (front q) (front q + size q - capacity q))];
        lia.
  - rewrite list_lookup_insert_ne by lia. rewrite Hd by done. f_equal.
    assert ((j - front q) mod capacity q ≠ size q) as Hks.
    { intros E. apply Hne. rewrite <- E, Zplus_mod_idemp_r.
      replace (front q + (j - front q)) with j by lia.
      by rewrite Z.mod_small. }
    destruct (decide ((j - front q) mod capacity q < size q)).
    + by rewrite lookup_app_l by lia.
    + rewrite !lookup_ge_None_2; [done| |]; [rewrite length_app; cbn|]; lia.
Qed.

Lemma repr_enqueue_full s :
  size q = capacity q →
  Improved.enqueue s q = (Raise (OverflowError "Queue full"), q).
Proof.
  intros E. unfold Improved.enqueue, Improved.is_full, bind, get, ret.
  by rewrite E, Z.eqb_refl.
Qed.

End Repr.

Lemma repr_dequeue q c l :
  repr q (c :: l) →
  ∃ q', Improved.dequeue q = (Ok (Some c), q') ∧ repr q' l ∧
        capacity q' = capacity q ∧
        front q' = (front q + 1) mod capacity q.
Proof.
  intros (Hc & Hlen & Hf & Hs & Hsc & Hd). cbn [length] in Hs.
  pose proof (Hd (front q) Hf) as Hfront.
  rewrite Z.sub_diag, Z.mod_0_l in Hfront by lia. cbn in Hfront.
  pose proof (ring_range (capacity q) (front q + 1) ltac:(lia)) as Hnf.
  unfold Improved.dequeue, Improved.is_empty, bind, get, ret, lift.
  destruct (Z.eqb_spec (size q) 0) as [|_]; [lia|].
  rewrite (getitem_in _ _ (Some c)), setitem_in by (done || lia). cbn.
  rewrite py_mod_pos by lia. cbn.
  eexists. split; [done|]. split; [|done].
  unfold repr; cbn. rewrite length_insert.
  repeat split; try lia.
  intros j Hj.
  assert ((j - (front q + 1) mod capacity q) mod capacity q
          = ((j - front q) mod capacity q - 1) mod capacity q) as ->.
  { rewrite Zminus_mod_idemp_r, Zminus_mod_idemp_l. f_equal. lia. }
  pose proof (ring_range (capacity q) (j - front q) ltac:(lia)) as Hk.
  destruct (decide (j = front q)) as [->|Hne].
  - rewrite list_lookup_insert_eq by lia. f_equal.
    rewrite Z.sub_diag, Z.mod_0_l by lia.
    replace ((0 - 1) mod capacity q) with (capacity q - 1)
      by (apply (Z.mod_unique _ _ (-1)); lia).
    symmetry. apply lookup_ge_None_2. lia.
  - rewrite list_lookup_insert_ne by lia. rewrite Hd by done. f_equal.
    assert ((j - front q) mod capacity q ≠ 0) as Hk0.
    { rewrite ring_sub by lia. destruct (Z.leb_spec (front q) j); lia. }
    rewrite (Z.mod_small (_ - 1)) by lia.
    replace (Z.to_nat ((j - front q) mod capacity q))
      with (S (Z.to_nat ((j - front q) mod capacity q - 1))) by lia.
    done.
Qed.

Lemma dequeue_empty q :
  size q = 0 → Improved.dequeue q = (Raise (IndexError "Queue empty"), q).
Proof.
  intros E. unfold Improved.dequeue, Improved.is_empty, bind, get, ret.
  by rewrite E.
Qed.

(** The array a constructor or a rebuild starts from. *)
Lemma repr_fresh c : 4 ≤ c → repr (Queue c (none_list c) 0 0) [].
Proof.
  intros Hc. unfold repr; cbn. rewrite length_none_list by lia.
  repeat split; try lia.
  intros j Hj. by rewrite lookup_none_list.
Qed.

Lemma repr_init cap : repr (Improved.init cap) [].
Proof. apply repr_fresh. lia. Qed.

(** The re-insertion loop of [remove_by_index]. *)
Lemma repr_reinsert l : ∀ q l0,
  repr q l0 → Z.of_nat (length l0 + length l) ≤ capacity q →
  ∃ q', for_in (Some <$> l)
          (λ it, Improved.enqueue it ;; ret (@Next unit)) q = (Ok None, q') ∧
        repr q' (l0 ++ l) ∧ capacity q' = capacity q ∧ front q' = front q.
Proof.
  induction l as [|c l IH]; intros q l0 R Hlen.
  - exists q. by rewrite app_nil_r.
  - cbn [length] in Hlen.
    destruct (repr_enqueue q l0 R c) as (q1 & E1 & R1 & Hc1 & Hf1).
    { destruct R as (_ & _ & _ & -> & _). lia. }
    destruct (IH q1 (l0 ++ [c]) R1) as (q2 & E2 & R2 & Hc2 & Hf2).
    { rewrite length_app, Hc1. cbn. lia. }
    exists q2. cbn [fmap list_fmap for_in]. unfold bind at 1 2.
    rewrite E1. unfold ret at 1. cbv beta iota.
    rewrite <- app_assoc in R2. split; [exact E2|].
    split; [done|]. split; congruence.
Qed.

(** The re-insertion loop of [resize_preserve], which stops when full. *)
Lemma repr_refill l : ∀ q l0,
  repr q l0 →
  ∃ q', for_in (Some <$> l)
          (λ it, let* full := Improved.is_full in
                 if full then ret (@Break unit) else
                 Improved.enqueue it ;; ret Next) q = (Ok None, q') ∧
        repr q' (l0 ++ take (Z.to_nat (capacity q - size q)) l) ∧
        capacity q' = capacity q ∧ front q' = front q.
Proof.
  induction l as [|c l IH]; intros q l0 R.
  - exists q. by rewrite take_nil, app_nil_r.
  - cbn [fmap list_fmap for_in].
    unfold bind at 1 2, Improved.is_full at 1, bind at 1, get at 1, ret at 1.
    cbv beta iota.
    destruct (Z.eqb_spec (size q) (capacity q)) as [Hfull|Hnf].
    + exists q. unfold ret. rewrite Hfull, Z.sub_diag. cbn.
      by rewrite app_nil_r.
    + pose proof R as (_ & _ & _ & Hs & Hsc & _).
      destruct (repr_enqueue q l0 R c) as (q1 & E1 & R1 & Hc1 & Hf1); [lia|].
      destruct (IH q1 (l0 ++ [c]) R1) as (q2 & E2 & R2 & Hc2 & Hf2).
      exists q2. unfold bind at 1. rewrite E1. unfold ret at 1.
      cbv beta iota. split; [exact E2|].
      split; [|split; congruence].
      destruct R1 as (_ & _ & _ & Hs1 & _). rewrite length_app in Hs1.
      cbn in Hs1.
      replace (Z.to_nat (capacity q - size q))
        with (S (Z.to_nat (capacity q1 - size q1))) by lia.
      cbn [take]. by rewrite <- app_assoc in R2.
Qed.

Lemma ring_inj c f i k :
  0 ≤ f < c → 0 ≤ i < c → 0 ≤ k < c →
  (f + i) mod c = (f + k) mod c → i = k.
Proof.
  intros Hf Hi Hk. rewrite !(ring_add c) by lia.
  destruct (Z.ltb_spec (f + i) c), (Z.ltb_spec (f + k) c); lia.
Qed.

(** What a search over [range n] finds is a position and itself. *)
Lemma list_find_range (P : Z → Prop) `{∀ x, Decision (P x)} n k i :
  list_find P (range n) = Some (k, i) →
  i = Z.of_nat k ∧ 0 ≤ i < n ∧ P i ∧ ∀ i', 0 ≤ i' < i → ¬ P i'.
Proof.
  intros (Hk & HP & Hmin)%list_find_Some.
  pose proof (lookup_lt_Some _ _ _ Hk) as Hlt. rewrite length_range in Hlt.
  rewrite lookup_range in Hk by done. injection Hk as <-.
  repeat split; [lia..|done|].
  intros i' Hi'. apply (Hmin (Z.to_nat i')); [|lia].
  rewrite lookup_range by lia. f_equal. lia.
Qed.

Lemma list_find_range_None (P : Z → Prop) `{∀ x, Decision (P x)} n :
  list_find P (range n) = None → ∀ i, 0 ≤ i < n → ¬ P i.
Proof.
  intros Hn%list_find_None i Hi. rewrite Forall_forall in Hn.
  apply Hn, elem_of_range, Hi.
Qed.

Section Repr_scans.
Variables (q : CircularQueue) (l : list car).
Hypothesis R : repr q l.

(** The loop of [remove_by_index] that computes [rel]. *)
Lemma repr_rel_scan idx :
  for_in (range (Z.of_nat (length (Some <$> l)))) (λ i,
    let* self := get in
    let* idx' := lift (py_mod (front self + i) (capacity self)) in
    if idx' =? idx then ret (Return i) else ret Next) q
  = (Ok ((λ p, p.2) <$>
           list_find (λ i, (front q + i) mod capacity q = idx)
                     (range (size q))), q).
Proof.
  destruct R as (Hc & Hlen & Hf & Hs & Hsc & Hd).
  rewrite length_fmap, <- Hs.
  apply (for_in_search (λ i, (front q + i) mod capacity q = idx) (λ i, i)).
  intros i Hi. unfold bind, get, lift, ret.
  rewrite py_mod_pos by lia.
  destruct (Z.eqb_spec ((front q + i) mod capacity q) idx);
    destruct (decide _); done.
Qed.

Lemma repr_remove_miss idx :
  ¬ in_window q idx → Improved.remove_by_index idx q = (Ok false, q).
Proof.
  intros Hout. unfold Improved.remove_by_index.
  unfold bind at 1, get at 1. cbv beta iota.
  destruct (Z.eqb_spec (size q) 0); [done|].
  unfold bind at 1. rewrite (repr_content_list q l R).
  unfold bind at 1. rewrite repr_rel_scan.
  destruct (list_find _ _) as [[k i]|] eqn:E; [|done].
  apply list_find_range in E as (_ & Hi & HP & _).
  destruct Hout. by exists i.
Qed.

Lemma repr_remove_hit i :
  0 ≤ i < size q →
  ∃ q', Improved.remove_by_index ((front q + i) mod capacity q) q
          = (Ok true, q') ∧
        repr q' (delete (Z.to_nat i) l) ∧
        front q' = 0 ∧ capacity q' = capacity q.
Proof.
  intros Hi. pose proof R as (Hc & Hlen & Hf & Hs & Hsc & Hd).
  unfold Improved.remove_by_index.
  unfold bind at 1, get at 1. cbv beta iota.
  destruct (Z.eqb_spec (size q) 0); [lia|].
  unfold bind at 1. rewrite (repr_content_list q l R).
  unfold bind at 1. rewrite repr_rel_scan.
  destruct (list_find _ _) as [[k i']|] eqn:E.
  - apply list_find_range in E as (_ & Hi' & HP & _).
    apply ring_inj in HP as ->; [|lia..]. cbn [fmap option_fmap option_map snd].
    assert (take (Z.to_nat i) (Some <$> l)
            ++ drop (Z.to_nat (i + 1)) (Some <$> l)
            = Some <$> delete (Z.to_nat i) l) as ->.
    { rewrite delete_take_drop, fmap_app, fmap_take, fmap_drop.
      do 2 f_equal. lia. }
    destruct (repr_reinsert (delete (Z.to_nat i) l)
                (Queue (capacity q) (none_list (capacity q)) 0 0) [])
      as (q' & E' & R' & Hc' & Hf').
    { by apply repr_fresh. }
    { cbn. pose proof (length_delete l (Z.to_nat i)) as Hdel.
      destruct (lookup_lt_is_Some_2 l (Z.to_nat i)) as [c Hl]; [lia|].
      specialize (Hdel (ex_intro _ c Hl)). lia. }
    exists q'. split; [|done].
    run. by rewrite (run_bind _ _ _ _ _ E').
  - apply list_find_range_None with (i := i) in E; [|done]. done.
Qed.

Lemma repr_resize n :
  ∃ q', Improved.resize_preserve n q = (Ok tt, q') ∧
        repr q' (take (Z.to_nat (Z.max 4 n)) l) ∧
        front q' = 0 ∧ capacity q' = Z.max 4 n.
Proof.
  destruct (repr_refill l (Queue (Z.max 4 n) (none_list (Z.max 4 n)) 0 0) [])
    as (q' & E' & R' & Hc' & Hf').
  { apply repr_fresh. lia. }
  cbn in R', Hc', Hf'. rewrite Z.sub_0_r in R'.
  exists q'. split; [|done].
  unfold Improved.resize_preserve.
  unfold bind at 1. rewrite (repr_content_list q l R).
  run. by rewrite (run_bind _ _ _ _ _ E').
Qed.

Lemma repr_find key :
  Improved.find_index_by_id key q
  = (Ok ((λ p, (front q + p.2) mod capacity q) <$>
           list_find (λ i, id_is key (l !! Z.to_nat i) = true)
                     (range (size q))), q).
Proof.
  destruct R as (Hc & Hlen & Hf & Hs & Hsc & Hd).
  unfold Improved.find_index_by_id. unfold bind at 1, get at 1.
  cbv beta iota.
  apply (for_in_search (λ i, id_is key (l !! Z.to_nat i) = true)
           (λ i, (front q + i) mod capacity q)).
  intros i Hi%elem_of_range.
  pose proof (repr_cell q l R i ltac:(lia)) as Hcell.
  unfold bind, get, lift, ret. rewrite py_mod_pos by lia.
  erewrite getitem_in; [| |exact Hcell].
  - destruct (l !! Z.to_nat i) as [c|]; cbn; [|done].
    destruct (decide _) as [E|E]; rewrite E || apply not_true_is_false in E;
      [done|by rewrite E].
  - rewrite Hlen. apply ring_range. lia.
Qed.

End Repr_scans.

(** ** The three readings of well-formedness agree *)

Lemma in_window_iff q j :
  0 < capacity q → 0 ≤ front q < capacity q → 0 ≤ size q ≤ capacity q →
  0 ≤ j < capacity q →
  in_window q j ↔ (j - front q) mod capacity q < size q.
Proof.
  intros Hc Hf Hs Hj. split.
  - intros (i & Hi & ->).
    rewrite Zminus_mod_idemp_l.
    replace (front q + i - front q) with i by lia.
    rewrite Z.mod_small; lia.
  - intros Hk. exists ((j - front q) mod capacity q). split.
    + pose proof (ring_range (capacity q) (j - front q) Hc). lia.
    + rewrite Zplus_mod_idemp_r.
      replace (front q + (j - front q)) with j by lia.
      by rewrite Z.mod_small.
Qed.

Lemma cells_ok_spec q d : ∀ j,
  cells_ok q j d = true ↔
  ∀ (k : nat) s, d !! k = Some s →
    truthy s = ((j + Z.of_nat k - front q) mod capacity q <? size q).
Proof.
  induction d as [|s d IH]; intros j; cbn [cells_ok].
  - split; [intros _ k s' Hk; by rewrite lookup_nil in Hk|done].
  - rewrite andb_true_iff, IH, Bool.eqb_true_iff. split.
    + intros [H0 Hd] [|k] s' Hk; cbn in Hk.
      * injection Hk as <-. by rewrite Z.add_0_r.
      * rewrite (Hd k s' Hk). do 3 f_equal. lia.
    + intros H. split.
      * rewrite (H 0%nat s eq_refl). by rewrite Z.add_0_r.
      * intros k s' Hk. rewrite (H (S k) s' Hk). do 3 f_equal. lia.
Qed.

Lemma omap_total {A B} (f : A → option B) (g : A → B) (l : list A) :
  (∀ x, x ∈ l → f x = Some (g x)) → omap f l = g <$> l.
Proof.
  induction l as [|x l IH]; intros H; [done|]. cbn.
  rewrite (H x) by apply list_elem_of_here. cbn.
  rewrite IH; [done|]. intros y Hy. apply H. by apply list_elem_of_further.
Qed.

Lemma valid_repr q : valid q = true → repr q (contents q).
Proof.
  unfold valid. rewrite !andb_true_iff.
  intros ((((((Hc & Hlen) & Hf0) & Hf1) & Hs0) & Hs1) & Hcells).
  apply Z.leb_le in Hc, Hf0, Hs0, Hs1. apply Z.eqb_eq in Hlen.
  apply Z.ltb_lt in Hf1. rewrite cells_ok_spec in Hcells.
  assert (∀ j, 0 ≤ j < capacity q →
            ∃ s, data q !! Z.to_nat j = Some s ∧
                 truthy s = ((j - front q) mod capacity q <? size q))
    as Hcell.
  { intros j Hj.
    destruct (lookup_lt_is_Some_2 (data q) (Z.to_nat j)) as [s Hs]; [lia|].
    exists s. split; [done|]. rewrite (Hcells _ _ Hs). do 3 f_equal. lia. }
  set (g := λ i : Z,
         default (Car "" 0)
           (mjoin (data q !! Z.to_nat ((front q + i) mod capacity q)))).
  assert (contents q = g <$> range (size q)) as Hcont.
  { apply omap_total. intros i Hi%elem_of_range.
    pose proof (ring_range (capacity q) (front q + i) ltac:(lia)) as Hr.
    destruct (Hcell _ Hr) as (s & Hs & Ht). unfold g. rewrite Hs. cbn.
    assert (in_window q ((front q + i) mod capacity q)) as Hw
      by (by exists i).
    apply in_window_iff in Hw; [|lia..].
    apply Z.ltb_lt in Hw. rewrite Hw in Ht. by destruct s. }
  assert (length (contents q) = Z.to_nat (size q)) as Hlc
    by (by rewrite Hcont, length_fmap, length_range).
  unfold repr. repeat split; try lia.
  intros j Hj. destruct (Hcell j Hj) as (s & Hs & Ht). rewrite Hs. f_equal.
  pose proof (ring_range (capacity q) (j - front q) ltac:(lia)) as Hk.
  destruct (Z.ltb_spec ((j - front q) mod capacity q) (size q)) as [Hin|Hout].
  - rewrite Hcont, list_lookup_fmap, lookup_range by lia. cbn. unfold g.
    rewrite Z2Nat.id by lia. rewrite Zplus_mod_idemp_r.
    replace (front q + (j - front q)) with j by lia.
    rewrite Z.mod_small, Hs by lia. by destruct s.
  - rewrite lookup_ge_None_2 by lia. by destruct s.
Qed.

(** The array of a well-formed queue is its logical sequence, padded with
    empty cells, turned [front] places to the right. *)
Lemma repr_rotation q l :
  repr q l →
  let L := (Some <$> l) ++ none_list (capacity q - size q) in
  let n := Z.to_nat (capacity q - front q) in
  data q = drop n L ++ take n L.
Proof.
  intros (Hc & Hlen & Hf & Hs & Hsc & Hd) L n.
  assert (length L = Z.to_nat (capacity q)) as HL.
  { unfold L, none_list. rewrite length_app, length_fmap, length_replicate.
    lia. }
  assert (∀ k, (k < Z.to_nat (capacity q))%nat → L !! k = Some (l !! k))
    as HLk.
  { intros k Hk. unfold L. destruct (decide (k < length l)%nat).
    - rewrite lookup_app_l by (by rewrite length_fmap).
      rewrite list_lookup_fmap. by destruct (lookup_lt_is_Some_2 l k) as [c ->].
    - rewrite lookup_app_r by (rewrite length_fmap; lia).
      rewrite (lookup_ge_None_2 l k) by lia.
      unfold none_list. apply lookup_replicate_2. rewrite length_fmap. lia. }
  apply list_eq. intros k.
  destruct (decide (k < Z.to_nat (capacity q))%nat) as [Hk|Hk].
  - specialize (Hd (Z.of_nat k) ltac:(lia)). rewrite Nat2Z.id in Hd.
    rewrite Hd, ring_sub by lia.
    destruct (Z.leb_spec (front q) (Z.of_nat k)).
    + rewrite lookup_app_r by (rewrite length_drop; lia).
      rewrite length_drop, lookup_take_lt by lia.
      rewrite HLk by lia. do 2 f_equal. lia.
    + rewrite lookup_app_l by (rewrite length_drop; lia).
      rewrite lookup_drop, HLk by lia. do 2 f_equal. lia.
  - rewrite !lookup_ge_None_2; [done| |lia].
    rewrite length_app, length_drop, length_take. lia.
Qed.

Lemma occupied_count_app d1 d2 :
  occupied_count (d1 ++ d2) = occupied_count d1 + occupied_count d2.
Proof. unfold occupied_count. rewrite filter_app, length_app. lia. Qed.

Lemma occupied_count_records (l : list car) :
  occupied_count (Some <$> l) = Z.of_nat (length l).
Proof.
  unfold occupied_count. induction l as [|c l IH]; [done|].
  cbn [fmap list_fmap]. rewrite filter_cons_True by done. cbn [length]. lia.
Qed.

Lemma occupied_count_none n : occupied_count (none_list n) = 0.
Proof.
  unfold occupied_count, none_list.
  induction (Z.to_nat n) as [|k IH]; [done|].
  cbn [replicate]. rewrite filter_cons_False; [done|].
  intros [c Hc]. discriminate.
Qed.

Lemma repr_count q l : repr q l → occupied_count (data q) = size q.
Proof.
  intros R. rewrite (repr_rotation q l R).
  rewrite occupied_count_app, Z.add_comm, <- occupied_count_app, take_drop.
  rewrite occupied_count_app, occupied_count_records, occupied_count_none.
  destruct R as (_ & _ & _ & -> & _). lia.
Qed.

Lemma repr_inv q l : repr q l → inv q.
Proof.
  intros R. pose proof R as (Hc & Hlen & Hf & Hs & Hsc & Hd).
  assert (∀ j, 0 ≤ j < capacity q →
            in_window q j ↔ (Z.to_nat ((j - front q) mod capacity q)
                             < length l)%nat) as Hwin.
  { intros j Hj. rewrite in_window_iff by lia.
    pose proof (ring_range (capacity q) (j - front q) ltac:(lia)). lia. }
  split; try lia.
  - intros j. destruct (decide (0 ≤ j < capacity q)) as [Hj|Hj].
    + rewrite Hwin by done. unfold occupied. rewrite Hd by done.
      rewrite <- lookup_lt_is_Some. split.
      * intros [_ [c E]]. exists c. congruence.
      * intros [c E]. split; [lia|]. exists c. congruence.
    + split.
      * intros [Hj0 [c E]]. apply lookup_lt_Some in E. lia.
      * intros (i & Hi & ->).
        pose proof (ring_range (capacity q) (front q + i) ltac:(lia)). lia.
  - intros j Hj Hout. rewrite Hwin in Hout by done. rewrite Hd by done.
    f_equal. apply lookup_ge_None_2. lia.
  - by apply repr_count with l.
  - congruence.
Qed.

Lemma inv_valid q : inv q → valid q = true.
Proof.
  intros [Hc Hlen Hf Hs Hwin Hemp Hcount Hsingle].
  unfold valid. rewrite !andb_true_iff.
  repeat split; try (apply Z.leb_le; lia); try (apply Z.ltb_lt; lia);
    try (apply Z.eqb_eq; lia).
  apply cells_ok_spec. intros k s Hk.
  pose proof (lookup_lt_Some _ _ _ Hk) as Hlt.
  assert (0 ≤ Z.of_nat k < capacity q) as Hj by lia.
  specialize (Hwin (Z.of_nat k)). specialize (Hemp _ Hj).
  rewrite in_window_iff in Hwin, Hemp by lia.
  rewrite Nat2Z.id in Hemp. unfold occupied in Hwin. rewrite Nat2Z.id in Hwin.
  rewrite Z.add_0_l.
  destruct (Z.ltb_spec ((Z.of_nat k - front q) mod capacity q) (size q))
    as [Hin|Hout].
  - apply Hwin in Hin as [_ [c Hc']]. rewrite Hk in Hc'.
    by injection Hc' as ->.
  - rewrite Hemp in Hk by lia. by injection Hk as <-.
Qed.

Lemma valid_inv q : valid q = true ↔ inv q.
Proof.
  split; [|apply inv_valid].
  intros V. apply repr_inv with (contents q), valid_repr, V.
Qed.

Lemma repr_valid q l : repr q l → valid q = true.
Proof. intros R. eapply inv_valid, repr_inv, R. Qed.

Lemma repr_contents q l : repr q l → contents q = l.
Proof.
  intros R. pose proof (repr_valid q l R) as V%valid_repr.
  pose proof (repr_content_list q l R) as E1.
  rewrite (repr_content_list q _ V) in E1.
  injection E1 as E1. by apply (inj (fmap Some)) in E1.
Qed.

Lemma in_window_cases q l j : repr q l → in_window q j ∨ ¬ in_window q j.
Proof.
  intros (Hc & Hlen & Hf & Hs & Hsc & Hd).
  destruct (decide (0 ≤ j < capacity q)) as [Hj|Hj].
  - rewrite in_window_iff by lia.
    destruct (decide ((j - front q) mod capacity q < size q)); auto.
  - right. intros (i & Hi & ->).
    pose proof (ring_range (capacity q) (front q + i) ltac:(lia)). lia.
Qed.

(** ** Every call keeps the queue well formed *)

Lemma step_repr o q l : repr q l → ∃ l', repr (step o q) l'.
Proof.
  intros R. pose proof R as (Hc & Hlen & Hf & Hs & Hsc & Hd).
  destruct o as [c| |idx|n]; cbn [step].
  - destruct (decide (size q = capacity q)) as [E|E].
    + rewrite (repr_enqueue_full q _ E). by exists l.
    + destruct (repr_enqueue q l R c) as (q' & -> & R' & _); [lia|].
      by exists (l ++ [c]).
  - destruct l as [|c l].
    + rewrite dequeue_empty by done. by exists [].
    + destruct (repr_dequeue q c l R) as (q' & -> & R' & _). by exists l.
  - destruct (in_window_cases q l idx R) as [(i & Hi & ->)|Hout].
    + destruct (repr_remove_hit q l R i Hi) as (q' & -> & R' & _).
      by eexists.
    + rewrite (repr_remove_miss q l R idx Hout). by exists l.
  - destruct (repr_resize q l R n) as (q' & -> & R' & _). by eexists.
Qed.

Lemma trace_repr ops : ∀ q l,
  repr q l → Forall (λ q', ∃ l', repr q' l') (trace ops q).
Proof.
  induction ops as [|o ops IH]; intros q l R; cbn [trace]; [constructor|].
  destruct (step_repr o q l R) as [l' R'].
  constructor; [by exists l'|]. by apply IH with l'.
Qed.

(** C1. Starting from a constructed queue, after every call of any
    sequence of [enqueue], [dequeue], [remove_by_index] and
    [resize_preserve] calls the data-model invariants hold:
    [0 ≤ size ≤ capacity], the occupied absolute positions are exactly the
    positions [(front + i) mod capacity] with [0 ≤ i < size], every other
    cell is empty, exactly [size] cells are occupied, [capacity ≥ 4], and
    a cell holds at most one record. *)
Theorem invariants_preserved (cap : Z) (ops : list op) :
  Forall inv (Improved.init cap :: trace ops (Improved.init cap)).
Proof.
  constructor.
  - apply repr_inv with [], repr_init.
  - eapply Forall_impl; [apply trace_repr with [], repr_init|].
    intros q [l R]. by apply repr_inv with l.
Qed.

(** ** First in, first out *)

Lemma enqueue_all_repr l : ∀ q l0 q1,
  repr q l0 → enqueue_all l q = (Ok tt, q1) → repr q1 (l0 ++ l).
Proof.
  unfold enqueue_all.
  induction l as [|c l IH]; intros q l0 q1 R E.
  - cbn in E. injection E as <-. by rewrite app_nil_r.
  - cbn [for_in] in E.
    destruct (decide (size q = capacity q)) as [Hfull|Hnf].
    + unfold bind at 1 2 3 in E.
      rewrite (repr_enqueue_full q _ Hfull) in E. discriminate.
    + pose proof R as (_ & _ & _ & _ & Hsc & _).
      destruct (repr_enqueue q l0 R c) as (q' & E' & R' & _); [lia|].
      unfold bind at 1 2 3 in E. rewrite E' in E. unfold ret at 1 in E.
      cbv beta iota in E. rewrite (app_assoc l0 [c] l : l0 ++ c :: l = _).
      apply (IH q'); [done|]. unfold bind at 1. exact E.
Qed.

Lemma dequeue_n_repr l : ∀ q l',
  repr q (l ++ l') →
  ∃ q2, dequeue_n (length l) q = (Ok (Some <$> l), q2) ∧ repr q2 l'.
Proof.
  unfold dequeue_n.
  induction l as [|c l IH]; intros q l' R.
  - by exists q.
  - destruct (repr_dequeue q c (l ++ l') R) as (q1 & E1 & R1 & _).
    destruct (IH q1 l' R1) as (q2 & E2 & R2).
    exists q2. split; [|done].
    cbn [length replicate for_append fmap list_fmap].
    rewrite (run_bind _ _ _ _ _ E1), (run_bind _ _ _ _ _ E2). done.
Qed.

(** C2. From an empty well-formed queue, [N] calls of [enqueue] that all
    return, followed by [N] calls of [dequeue], hand the records back in
    the order in which they were enqueued (and leave the queue empty). *)
Theorem fifo_order (q q1 : CircularQueue) (l : list car) :
  valid q = true → size q = 0 →
  enqueue_all l q = (Ok tt, q1) →
  ∃ q2, dequeue_n (length l) q1 = (Ok (Some <$> l), q2) ∧
        size q2 = 0 ∧ valid q2 = true.
Proof.
  intros V Hs E. pose proof (valid_repr q V) as R.
  assert (contents q = []) as Hnil.
  { destruct R as (_ & _ & _ & Hlen & _). rewrite Hs in Hlen.
    destruct (contents q); [done|cbn in Hlen; lia]. }
  rewrite Hnil in R.
  pose proof (enqueue_all_repr l q [] q1 R E) as R1. cbn in R1.
  rewrite <- (app_nil_r l) in R1.
  destruct (dequeue_n_repr l q1 [] R1) as (q2 & E2 & R2).
  exists q2. split; [done|]. split; [|by apply repr_valid with []].
  by destruct R2 as (_ & _ & _ & -> & _).
Qed.

Lemma fifo_order_witness :
  ∃ q2, dequeue_n 3 wrapped_queue
        = (Ok [Some car_a; Some car_b; Some car_c], q2) ∧
        size q2 = 0 ∧ valid q2 = true.
Proof.
  apply (fifo_order drained_queue wrapped_queue [car_a; car_b; car_c]);
    reflexivity.
Defined.

(** C4, as the code runs it. The round trip on a queue of capacity 4:
    after [enqueue(A)], [enqueue(B)], [enqueue(C)] the call [dequeue()]
    returns [A] and leaves [[B, C]] with [front = 1] and [size = 2];
    [enqueue(D)] then gives [[B, C, D]] with [front = 1] and [size = 3].
    The new record goes to cell [(1 + 2) mod 4 = 3]; cell 0, which the
    dequeue cleared, stays empty: nothing has wrapped round yet. *)
Theorem round_trip_example (A B C D : car) :
  let q3 := snd ((Improved.enqueue (Some A) ;; Improved.enqueue (Some B) ;;
                  Improved.enqueue (Some C)) (Improved.init 4)) in
  let q4 := snd (Improved.dequeue q3) in
  let q5 := snd (Improved.enqueue (Some D) q4) in
  Improved.dequeue q3 = (Ok (Some A), q4) ∧
  Improved.content_list q4 = (Ok [Some B; Some C], q4) ∧
  front q4 = 1 ∧ size q4 = 2 ∧
  Improved.enqueue (Some D) q4 = (Ok tt, q5) ∧
  Improved.content_list q5 = (Ok [Some B; Some C; Some D], q5) ∧
  front q5 = 1 ∧ size q5 = 3 ∧ capacity q5 = 4 ∧
  getitem (data q5) 3 = Ok (Some D) ∧
  getitem (data q5) 0 = Ok None ∧
  data q5 = [None; Some B; Some C; Some D].
Proof. cbv zeta. repeat split; vm_compute; reflexivity. Qed.

(** C4 as the specification words it fails: on that trace cell 0 does not
    hold [D] and cell 3 is not empty. *)
Lemma round_trip_example_counterexample :
  let A := Car "A" 1 in
  let B := Car "B" 2 in
  let C := Car "C" 3 in
  let D := Car "D" 4 in
  let q3 := snd ((Improved.enqueue (Some A) ;; Improved.enqueue (Some B) ;;
                  Improved.enqueue (Some C)) (Improved.init 4)) in
  let q4 := snd (Improved.dequeue q3) in
  let q5 := snd (Improved.enqueue (Some D) q4) in
  ¬ (Improved.dequeue q3 = (Ok (Some A), q4) ∧
     Improved.content_list q4 = (Ok [Some B; Some C], q4) ∧
     front q4 = 1 ∧ size q4 = 2 ∧
     Improved.content_list q5 = (Ok [Some B; Some C; Some D], q5) ∧
     front q5 = 1 ∧ size q5 = 3 ∧
     getitem (data q5) 0 = Ok (Some D) ∧
     getitem (data q5) 3 = Ok None).
Proof.
  cbv zeta. intros (_ & _ & _ & _ & _ & _ & _ & H0 & _).
  vm_compute in H0. discriminate.
Qed.

(** ** The two variants side by side *)

Lemma basic_init cap : Basic.init cap = Improved.init cap.
Proof. done. Qed.

Lemma basic_is_full q : Basic.is_full q = Improved.is_full q.
Proof. done. Qed.

Lemma basic_is_empty q : Basic.is_empty q = Improved.is_empty q.
Proof. done. Qed.

Lemma basic_content_list q : Basic.content_list q = Improved.content_list q.
Proof. done. Qed.

Lemma basic_enqueue_full item q :
  size q = capacity q →
  Basic.enqueue item q = (Raise (OverflowError "Queue is full"), q).
Proof.
  intros E. unfold Basic.enqueue, Basic.is_full, bind, get, ret.
  by rewrite E, Z.eqb_refl.
Qed.

Lemma basic_enqueue_not_full item q :
  size q ≠ capacity q → Basic.enqueue item q = Improved.enqueue item q.
Proof.
  intros E.
  unfold Basic.enqueue, Improved.enqueue.
  rewrite (run_bind Basic.is_full _ q (size q =? capacity q) q) by done.
  rewrite (run_bind Improved.is_full _ q (size q =? capacity q) q) by done.
  by destruct (Z.eqb_spec (size q) (capacity q)).
Qed.

Lemma basic_dequeue_empty q :
  size q = 0 → Basic.dequeue q = (Raise (IndexError "Queue is empty"), q).
Proof.
  intros E. unfold Basic.dequeue, Basic.is_empty, bind, get, ret.
  by rewrite E.
Qed.

Lemma basic_dequeue_not_empty q :
  size q ≠ 0 → Basic.dequeue q = Improved.dequeue q.
Proof.
  intros E.
  unfold Basic.dequeue, Improved.dequeue.
  rewrite (run_bind Basic.is_empty _ q (size q =? 0) q) by done.
  rewrite (run_bind Improved.is_empty _ q (size q =? 0) q) by done.
  by destruct (Z.eqb_spec (size q) 0).
Qed.

Lemma agree_refl {A} (x : res A * CircularQueue) : agree x x.
Proof. split; [done|]. by destruct x as [[a|e] q]. Qed.

Lemma enqueue_returns item q :
  0 < capacity q → Z.of_nat (length (data q)) = capacity q →
  size q ≠ capacity q →
  Improved.enqueue item q
  = (Ok tt,
     Queue (capacity q)
       (<[Z.to_nat ((front q + size q) mod capacity q) := item]> (data q))
       (front q) (size q + 1)).
Proof.
  intros Hc Hlen Hnf. unfold Improved.enqueue.
  rewrite (run_bind Improved.is_full _ q (size q =? capacity q) q) by done.
  destruct (Z.eqb_spec (size q) (capacity q)); [done|].
  pose proof (ring_range (capacity q) (front q + size q) Hc).
  unfold bind, get, lift. by rewrite py_mod_pos, setitem_in by lia.
Qed.

Lemma valid_content_list q :
  valid q = true → Improved.content_list q = (Ok (Some <$> contents q), q).
Proof. intros V. apply repr_content_list, valid_repr, V. Qed.

(** ** Resizing *)

(** C3, as the code runs it. From a well-formed queue [resize_preserve]
    returns normally with [capacity = max(4, new_capacity)] and [front = 0],
    and the logical sequence becomes the first [max(4, new_capacity)]
    records of the old one, in arrival order.  So it is unchanged whenever
    the old size is at most [max(4, new_capacity)], in particular when
    [new_capacity ≥ old size], and is cut to the first [new_capacity]
    records when [4 ≤ new_capacity < old size]. *)
Theorem resize_preserve_order (q : CircularQueue) (new_capacity : Z) :
  valid q = true →
  ∃ l q',
    Improved.content_list q = (Ok (Some <$> l), q) ∧
    Improved.resize_preserve new_capacity q = (Ok tt, q') ∧
    capacity q' = Z.max 4 new_capacity ∧ front q' = 0 ∧
    Improved.content_list q'
    = (Ok (Some <$> take (Z.to_nat (Z.max 4 new_capacity)) l), q') ∧
    (size q ≤ Z.max 4 new_capacity →
     Improved.content_list q' = (Ok (Some <$> l), q')) ∧
    (size q ≤ new_capacity →
     Improved.content_list q' = (Ok (Some <$> l), q')) ∧
    (4 ≤ new_capacity < size q →
     Improved.content_list q'
     = (Ok (Some <$> take (Z.to_nat new_capacity) l), q') ∧
     size q' = new_capacity).
Proof.
  intros V. pose proof (valid_repr q V) as R.
  destruct (repr_resize q _ R new_capacity) as (q' & E & R' & Hf & Hc).
  pose proof (repr_content_list q' _ R') as Ec.
  pose proof R as (_ & _ & _ & Hs & _).
  exists (contents q), q'. split; [by apply repr_content_list|].
  repeat split; try done.
  - intros Hle. by rewrite take_ge in Ec by lia.
  - intros Hle. by rewrite take_ge in Ec by lia.
  - by rewrite Z.max_r in Ec by lia.
  - destruct R' as (_ & _ & _ & -> & _). rewrite length_take. lia.
Qed.

Lemma resize_preserve_order_witness :
  ∃ l q',
    Improved.content_list busy_queue = (Ok (Some <$> l), busy_queue) ∧
    Improved.resize_preserve 4 busy_queue = (Ok tt, q') ∧
    capacity q' = Z.max 4 4 ∧ front q' = 0 ∧
    Improved.content_list q' = (Ok (Some <$> take (Z.to_nat (Z.max 4 4)) l), q') ∧
    (size busy_queue ≤ Z.max 4 4 →
     Improved.content_list q' = (Ok (Some <$> l), q')) ∧
    (size busy_queue ≤ 4 →
     Improved.content_list q' = (Ok (Some <$> l), q')) ∧
    (4 ≤ 4 < size busy_queue →
     Improved.content_list q' = (Ok (Some <$> take (Z.to_nat 4) l), q') ∧
     size q' = 4).
Proof. apply (resize_preserve_order busy_queue 4). reflexivity. Defined.

(** C3 as the specification words it fails below the capacity floor: a
    request for capacity 2 on a queue of three records keeps all three,
    not the first two. *)
Lemma resize_truncation_counterexample :
  ¬ (∀ (q : CircularQueue) (new_cap : Z) (items : list slot) q',
       valid q = true → new_cap < size q →
       Improved.content_list q = (Ok items, q) →
       Improved.resize_preserve new_cap q = (Ok tt, q') →
       Improved.content_list q' = (Ok (take (Z.to_nat new_cap) items), q')).
Proof.
  intros H.
  specialize (H (Queue 4 [Some car_a; Some car_b; Some car_c; None] 0 3) 2
                [Some car_a; Some car_b; Some car_c]
                (Queue 4 [Some car_a; Some car_b; Some car_c; None] 0 3)
                eq_refl eq_refl eq_refl eq_refl).
  vm_compute in H. discriminate.
Qed.

(** ** Removal by absolute index *)

(** C5. On a well-formed queue [remove_by_index(idx)] returns [False] and
    leaves the queue as it was when the queue is empty or [idx] is not an
    occupied cell of the logical window; it returns [True] exactly when
    [idx] is in the window, and then the logical sequence is the old one
    with the record at [idx] deleted and the order otherwise kept, [front]
    is 0 and [capacity] is unchanged. *)
Theorem remove_by_index_correct (q : CircularQueue) (idx : Z) :
  valid q = true →
  (size q = 0 ∨ ¬ occupied q idx ∨ ¬ in_window q idx →
   Improved.remove_by_index idx q = (Ok false, q)) ∧
  (in_window q idx → ∃ q', Improved.remove_by_index idx q = (Ok true, q')) ∧
  (∀ q', Improved.remove_by_index idx q = (Ok true, q') →
     ∃ (l : list car) (i : nat) (c : car),
       Improved.content_list q = (Ok (Some <$> l), q) ∧
       l !! i = Some c ∧
       idx = (front q + Z.of_nat i) mod capacity q ∧
       data q !! Z.to_nat idx = Some (Some c) ∧
       Improved.content_list q' = (Ok (Some <$> delete i l), q') ∧
       size q' = size q - 1 ∧ front q' = 0 ∧ capacity q' = capacity q ∧
       valid q' = true).
Proof.
  intros V. pose proof (valid_repr q V) as R.
  pose proof (proj1 (valid_inv q) V) as I.
  pose proof R as (Hc & Hlen & Hf & Hs & Hsc & Hd).
  assert (¬ in_window q idx →
          Improved.remove_by_index idx q = (Ok false, q)) as Hmiss
    by apply (repr_remove_miss q _ R).
  split; [|split].
  - intros [E|[Hocc|Hout]]; apply Hmiss.
    + intros (i & Hi & _). lia.
    + by rewrite <- (inv_window q I).
    + done.
  - intros (i & Hi & ->).
    destruct (repr_remove_hit q _ R i Hi) as (q' & E & _). by exists q'.
  - intros q' E.
    destruct (in_window_cases q _ idx R) as [(i & Hi & ->)|Hout].
    + destruct (repr_remove_hit q _ R i Hi) as (q1 & E1 & R1 & Hf1 & Hc1).
      rewrite E1 in E. injection E as <-.
      destruct (lookup_lt_is_Some_2 (contents q) (Z.to_nat i)) as [c Hl];
        [lia|].
      exists (contents q), (Z.to_nat i), c.
      rewrite Z2Nat.id by lia.
      split; [by apply repr_content_list|]. split; [done|]. split; [done|].
      split; [by rewrite (repr_cell q _ R i), Hl by lia|].
      split; [by apply repr_content_list|].
      split; [|split; [done|split; [done|by apply repr_valid in R1]]].
      destruct R1 as (_ & _ & _ & -> & _).
      rewrite length_delete by eauto. lia.
    + rewrite Hmiss in E by done. discriminate.
Qed.

Lemma remove_by_index_correct_witness :
  Improved.remove_by_index 1 wrapped_queue = (Ok false, wrapped_queue) ∧
  ∃ q', Improved.remove_by_index 3 wrapped_queue = (Ok true, q').
Proof.
  destruct (remove_by_index_correct wrapped_queue 1 eq_refl)
    as (Hmiss & _ & _).
  destruct (remove_by_index_correct wrapped_queue 3 eq_refl)
    as (_ & Hhit & _).
  split.
  - apply Hmiss. right. left. intros [_ [x Hx]]. vm_compute in Hx.
    discriminate.
  - apply Hhit. exists 1. split; [cbn; lia|reflexivity].
Defined.

(** ** Overflow and underflow *)

(** C6. On a well-formed queue, in both variants, [enqueue] raises
    [OverflowError] exactly when [size = capacity] and otherwise returns;
    [dequeue] raises its [IndexError] exactly when [size = 0] and
    otherwise returns.  The raising call leaves the whole queue (size,
    front and every cell) as it was. *)
Theorem overflow_and_empty_errors (q : CircularQueue) (item : slot) :
  valid q = true →
  (size q = capacity q →
   Improved.enqueue item q = (Raise (OverflowError "Queue full"), q) ∧
   Basic.enqueue item q = (Raise (OverflowError "Queue is full"), q)) ∧
  (size q ≠ capacity q →
   ∃ q', Improved.enqueue item q = (Ok tt, q') ∧
         Basic.enqueue item q = (Ok tt, q')) ∧
  (size q = 0 →
   Improved.dequeue q = (Raise (IndexError "Queue empty"), q) ∧
   Basic.dequeue q = (Raise (IndexError "Queue is empty"), q)) ∧
  (size q ≠ 0 →
   ∃ c q', Improved.dequeue q = (Ok (Some c), q') ∧
           Basic.dequeue q = (Ok (Some c), q')).
Proof.
  intros V. pose proof (valid_repr q V) as R.
  pose proof R as (Hc & Hlen & Hf & Hs & Hsc & Hd).
  repeat split.
  - by apply repr_enqueue_full.
  - by apply basic_enqueue_full.
  - intros Hnf. eexists. rewrite basic_enqueue_not_full by done.
    split; apply enqueue_returns; (done || lia).
  - by apply dequeue_empty.
  - by apply basic_dequeue_empty.
  - intros Hne. rewrite basic_dequeue_not_empty by done.
    destruct (contents q) as [|c l] eqn:E; [cbn in Hs; lia|].
    destruct (repr_dequeue q c l R) as (q' & Ed & _). by exists c, q'.
Qed.

Lemma overflow_and_empty_errors_witness :
  (Improved.enqueue (Some car_e) full_queue
   = (Raise (OverflowError "Queue full"), full_queue) ∧
   Basic.enqueue (Some car_e) full_queue
   = (Raise (OverflowError "Queue is full"), full_queue)) ∧
  (Improved.dequeue drained_queue
   = (Raise (IndexError "Queue empty"), drained_queue) ∧
   Basic.dequeue drained_queue
   = (Raise (IndexError "Queue is empty"), drained_queue)).
Proof.
  split.
  - apply (overflow_and_empty_errors full_queue (Some car_e)); reflexivity.
  - apply (overflow_and_empty_errors drained_queue None); reflexivity.
Defined.

(** ** Lookup by key *)

(** C7. On a well-formed queue [find_index_by_id(key)] leaves the queue
    alone and walks the logical positions [0 .. size-1]: it returns the
    absolute index [(front + i) mod capacity] of the first position [i]
    whose record has exactly that key (the earliest arrival among
    duplicates), and [None] when no record has it, as in an empty queue. *)
Theorem find_index_by_id_first_match (q : CircularQueue) (key : string) :
  valid q = true →
  ∃ (l : list car) (r : option Z),
    Improved.content_list q = (Ok (Some <$> l), q) ∧
    Improved.find_index_by_id key q = (Ok r, q) ∧
    (size q = 0 → r = None) ∧
    match r with
    | Some idx =>
        ∃ (i : nat) (c : car),
          l !! i = Some c ∧ car_id c = key ∧
          idx = (front q + Z.of_nat i) mod capacity q ∧
          data q !! Z.to_nat idx = Some (Some c) ∧
          ∀ (i' : nat) c', (i' < i)%nat → l !! i' = Some c' → car_id c' ≠ key
    | None => ∀ c, c ∈ l → car_id c ≠ key
    end.
Proof.
  intros V. pose proof (valid_repr q V) as R.
  pose proof R as (Hc & Hlen & Hf & Hs & Hsc & Hd).
  exists (contents q). eexists.
  split; [by apply repr_content_list|].
  split; [by apply repr_find|].
  destruct (list_find _ _) as [[k i]|] eqn:E; cbn [fmap option_fmap option_map].
  - apply list_find_range in E as (-> & Hi & HP & Hmin). cbn [snd].
    rewrite Nat2Z.id in HP.
    destruct (contents q !! k) as [c|] eqn:Hl; [|done].
    cbn in HP. apply bool_decide_eq_true in HP.
    split; [lia|]. exists k, c.
    split; [done|]. split; [done|]. split; [done|].
    split; [by rewrite (repr_cell q _ R), Nat2Z.id, Hl by lia|].
    intros i' c' Hlt Hl' Hkey. apply (Hmin (Z.of_nat i')); [lia|].
    rewrite Nat2Z.id, Hl'. cbn. by apply bool_decide_eq_true.
  - split; [done|].
    intros c (i & Hl)%list_elem_of_lookup Hkey.
    pose proof (lookup_lt_Some _ _ _ Hl) as Hlt.
    apply list_find_range_None with (i := Z.of_nat i) in E; [|lia].
    apply E. rewrite Nat2Z.id, Hl. cbn. by apply bool_decide_eq_true.
Qed.

Lemma find_index_by_id_first_match_witness :
  Improved.find_index_by_id "KA01AB1234" wrapped_queue
  = (Ok (Some 2), wrapped_queue) ∧
  ∃ (l : list car) (r : option Z),
    Improved.content_list wrapped_queue = (Ok (Some <$> l), wrapped_queue) ∧
    Improved.find_index_by_id "KA01AB1234" wrapped_queue
    = (Ok r, wrapped_queue) ∧
    (size wrapped_queue = 0 → r = None) ∧
    match r with
    | Some idx =>
        ∃ (i : nat) (c : car),
          l !! i = Some c ∧ car_id c = "KA01AB1234" ∧
          idx = (front wrapped_queue + Z.of_nat i) mod capacity wrapped_queue ∧
          data wrapped_queue !! Z.to_nat idx = Some (Some c) ∧
          ∀ (i' : nat) c', (i' < i)%nat → l !! i' = Some c' →
                           car_id c' ≠ "KA01AB1234"
    | None => ∀ c, c ∈ l → car_id c ≠ "KA01AB1234"
    end.
Proof.
  split; [reflexivity|].
  apply (find_index_by_id_first_match wrapped_queue "KA01AB1234").
  reflexivity.
Defined.

(** ** The capacity floor *)

(** C8. A request for a capacity below 4 is not refused: the constructor
    (of either variant) builds a well-formed empty queue of capacity 4, and
    [resize_preserve] on a well-formed queue returns normally with
    capacity 4. *)
Theorem capacity_floor (c : Z) (q : CircularQueue) :
  c < 4 → valid q = true →
  capacity (Improved.init c) = 4 ∧ capacity (Basic.init c) = 4 ∧
  valid (Improved.init c) = true ∧ size (Improved.init c) = 0 ∧
  ∃ q', Improved.resize_preserve c q = (Ok tt, q') ∧ capacity q' = 4 ∧
        valid q' = true.
Proof.
  intros Hc V. pose proof (valid_repr q V) as R.
  unfold Basic.init, Improved.init. cbn [capacity size].
  rewrite Z.max_l by lia.
  split; [done|]. split; [done|].
  split; [apply repr_valid with [], repr_fresh; lia|]. split; [done|].
  destruct (repr_resize q _ R c) as (q' & E & R' & _ & Hcap).
  exists q'. split; [done|]. split; [lia|]. by apply repr_valid in R'.
Qed.

Lemma capacity_floor_witness :
  capacity (Improved.init (-3)) = 4 ∧ capacity (Basic.init (-3)) = 4 ∧
  valid (Improved.init (-3)) = true ∧ size (Improved.init (-3)) = 0 ∧
  ∃ q', Improved.resize_preserve (-3) wrapped_queue = (Ok tt, q') ∧
        capacity q' = 4 ∧ valid q' = true.
Proof. apply (capacity_floor (-3) wrapped_queue); [lia|reflexivity]. Defined.

(** ** The basic variant against the improved one *)

(** C9, as the code runs it. In every state and for every input the
    [CircularQueue] of [app.py] and that of [improved_app.py] build the
    same queue, answer [is_full], [is_empty] and [content_list] alike, and
    their [enqueue] and [dequeue] leave the same queue and either return
    the same value or raise an exception of the same class.  Only the
    message of the exception a full or empty queue raises differs. *)
Theorem basic_matches_improved (q : CircularQueue) (cap : Z) (item : slot) :
  Basic.init cap = Improved.init cap ∧
  Basic.default_capacity = Improved.default_capacity ∧
  Basic.is_full q = Improved.is_full q ∧
  Basic.is_empty q = Improved.is_empty q ∧
  Basic.content_list q = Improved.content_list q ∧
  agree (Basic.enqueue item q) (Improved.enqueue item q) ∧
  agree (Basic.dequeue q) (Improved.dequeue q) ∧
  (size q ≠ capacity q → Basic.enqueue item q = Improved.enqueue item q) ∧
  (size q ≠ 0 → Basic.dequeue q = Improved.dequeue q).
Proof.
  repeat split; try done.
  - destruct (decide (size q = capacity q)) as [E|E].
    + by rewrite basic_enqueue_full, (repr_enqueue_full q item) by done.
    + rewrite basic_enqueue_not_full by done. apply agree_refl.
  - destruct (decide (size q = capacity q)) as [E|E].
    + by rewrite basic_enqueue_full, (repr_enqueue_full q item) by done.
    + rewrite basic_enqueue_not_full by done. apply agree_refl.
  - destruct (decide (size q = 0)) as [E|E].
    + by rewrite basic_dequeue_empty, dequeue_empty by done.
    + rewrite basic_dequeue_not_empty by done. apply agree_refl.
  - destruct (decide (size q = 0)) as [E|E].
    + by rewrite basic_dequeue_empty, dequeue_empty by done.
    + rewrite basic_dequeue_not_empty by done. apply agree_refl.
  - apply basic_enqueue_not_full.
  - apply basic_dequeue_not_empty.
Qed.

Lemma basic_matches_improved_witness :
  Basic.enqueue (Some car_e) wrapped_queue
  = Improved.enqueue (Some car_e) wrapped_queue ∧
  Basic.dequeue wrapped_queue = Improved.dequeue wrapped_queue.
Proof.
  destruct (basic_matches_improved wrapped_queue 8 (Some car_e))
    as (_ & _ & _ & _ & _ & _ & _ & He & Hd).
  split; [apply He|apply Hd]; discriminate.
Defined.

(** C9 as stated fails on the errors: on a full queue the two [enqueue]
    raise [OverflowError] with different messages, and on an empty queue
    the two [dequeue] raise [IndexError] with different messages. *)
Lemma basic_matches_improved_counterexample :
  ¬ (∀ (q : CircularQueue) (item : slot),
       Basic.enqueue item q = Improved.enqueue item q ∧
       Basic.dequeue q = Improved.dequeue q).
Proof.
  intros H. destruct (H full_queue (Some car_e)) as [He _].
  vm_compute in He. discriminate.
Qed.

(** ** Rebuilding never overflows *)

(** C10. From a well-formed queue [remove_by_index] and [resize_preserve]
    always return normally: no [enqueue] of their re-insertion loops
    raises [OverflowError] (or anything else), whatever the index or the
    requested capacity. *)
Theorem rebuild_never_overflows (q : CircularQueue) :
  valid q = true →
  (∀ idx, ∃ b q', Improved.remove_by_index idx q = (Ok b, q')) ∧
  (∀ n, ∃ q', Improved.resize_preserve n q = (Ok tt, q')).
Proof.
  intros V. pose proof (valid_repr q V) as R. split.
  - intros idx.
    destruct (in_window_cases q _ idx R) as [(i & Hi & ->)|Hout].
    + destruct (repr_remove_hit q _ R i Hi) as (q' & E & _). by exists true, q'.
    + exists false, q. by apply (repr_remove_miss q _ R).
  - intros n. destruct (repr_resize q _ R n) as (q' & E & _). by exists q'.
Qed.

Lemma rebuild_never_overflows_witness :
  (∀ idx, ∃ b q', Improved.remove_by_index idx full_queue = (Ok b, q')) ∧
  (∀ n, ∃ q', Improved.resize_preserve n full_queue = (Ok tt, q')).
Proof. apply (rebuild_never_overflows full_queue). reflexivity. Defined.

(** ** More on the queue methods *)

(** After a rebuild the array is the logical sequence followed by empty
    cells. *)
Lemma repr_normal_form q l :
  repr q l → front q = 0 →
  data q = (Some <$> l) ++ none_list (capacity q - size q).
Proof.
  intros R Hf. pose proof (repr_rotation q l R) as E. cbv zeta in E.
  destruct R as (Hc & Hlen & _ & Hs & Hsc & _).
  rewrite Hf, Z.sub_0_r in E.
  rewrite drop_ge, take_ge in E; [done| |];
    unfold none_list;
    rewrite length_app, length_fmap, length_replicate; lia.
Qed.

(** X1. [enqueue] on a well-formed queue that is not full appends the
    record at the rear of the logical sequence; it writes the one cell
    [(front + size) mod capacity], which was empty, and moves neither
    [front] nor [capacity]. *)
Theorem enqueue_appends (q : CircularQueue) (c : car) :
  valid q = true → size q ≠ capacity q →
  ∃ (l : list car) q',
    Improved.content_list q = (Ok (Some <$> l), q) ∧
    Improved.enqueue (Some c) q = (Ok tt, q') ∧
    Improved.content_list q' = (Ok (Some <$> (l ++ [c])), q') ∧
    data q !! Z.to_nat ((front q + size q) mod capacity q) = Some None ∧
    data q'
    = <[Z.to_nat ((front q + size q) mod capacity q) := Some c]> (data q) ∧
    front q' = front q ∧ capacity q' = capacity q ∧ size q' = size q + 1 ∧
    valid q' = true.
Proof.
  intros V Hnf. pose proof (valid_repr q V) as R.
  pose proof R as (Hc & Hlen & Hf & Hs & Hsc & Hd).
  destruct (repr_enqueue q _ R c) as (q' & E & R' & Hc' & Hf'); [lia|].
  exists (contents q), q'.
  split; [by apply repr_content_list|]. split; [done|].
  split; [by apply repr_content_list|].
  split.
  { rewrite (repr_cell q _ R) by lia. f_equal. apply lookup_ge_None_2. lia. }
  rewrite enqueue_returns in E by (done || lia). injection E as <-.
  cbn. repeat split; try done. by apply repr_valid in R'.
Qed.

Lemma enqueue_appends_witness :
  ∃ (l : list car) q',
    Improved.content_list wrapped_queue = (Ok (Some <$> l), wrapped_queue) ∧
    Improved.enqueue (Some car_d) wrapped_queue = (Ok tt, q') ∧
    Improved.content_list q' = (Ok (Some <$> (l ++ [car_d])), q') ∧
    data wrapped_queue !! 1%nat = Some None ∧
    data q' = <[1%nat := Some car_d]> (data wrapped_queue) ∧
    front q' = 2 ∧ capacity q' = 4 ∧ size q' = 3 + 1 ∧ valid q' = true.
Proof.
  apply (enqueue_appends wrapped_queue car_d); [reflexivity|discriminate].
Defined.

(** X2. [dequeue] on a well-formed queue that is not empty returns the
    first record of the logical sequence and leaves the rest in order; it
    clears the cell at [front] and nothing else, advances [front] by one
    round the ring and keeps [capacity]. *)
Theorem dequeue_takes_head (q : CircularQueue) :
  valid q = true → size q ≠ 0 →
  ∃ (c : car) (l : list car) q',
    Improved.content_list q = (Ok (Some <$> (c :: l)), q) ∧
    Improved.dequeue q = (Ok (Some c), q') ∧
    Improved.content_list q' = (Ok (Some <$> l), q') ∧
    data q' = <[Z.to_nat (front q) := None]> (data q) ∧
    front q' = (front q + 1) mod capacity q ∧
    capacity q' = capacity q ∧ size q' = size q - 1 ∧ valid q' = true.
Proof.
  intros V Hne. pose proof (valid_repr q V) as R.
  pose proof R as (Hc & Hlen & Hf & Hs & Hsc & Hd).
  destruct (contents q) as [|c l] eqn:El; [cbn in Hs; lia|].
  destruct (repr_dequeue q c l R) as (q' & E & R' & Hc' & Hf').
  exists c, l, q'.
  split; [by apply repr_content_list|]. split; [done|].
  split; [by apply repr_content_list|].
  split; [|split; [done|split; [done|split; [|by apply repr_valid in R']]]].
  - pose proof (Hd (front q) Hf) as Hfront.
    rewrite Z.sub_diag, Z.mod_0_l in Hfront by lia. cbn in Hfront.
    revert E. unfold Improved.dequeue.
    rewrite (run_bind Improved.is_empty _ q (size q =? 0) q) by done.
    destruct (Z.eqb_spec (size q) 0); [done|].
    unfold bind, get, lift, set_data, set_front, set_size, ret.
    rewrite (getitem_in _ _ (Some c)), setitem_in by (done || lia). cbn.
    rewrite py_mod_pos by lia. cbn. by intros [= <-].
  - destruct R' as (_ & _ & _ & -> & _). cbn in Hs. lia.
Qed.

Lemma dequeue_takes_head_witness :
  ∃ (c : car) (l : list car) q',
    Improved.content_list wrapped_queue
    = (Ok (Some <$> (c :: l)), wrapped_queue) ∧
    Improved.dequeue wrapped_queue = (Ok (Some c), q') ∧
    Improved.content_list q' = (Ok (Some <$> l), q') ∧
    data q' = <[2%nat := None]> (data wrapped_queue) ∧
    front q' = (2 + 1) mod 4 ∧
    capacity q' = 4 ∧ size q' = 3 - 1 ∧ valid q' = true.
Proof.
  apply (dequeue_takes_head wrapped_queue); [reflexivity|discriminate].
Defined.

Lemma dequeue_returns q c :
  0 < capacity q → 0 ≤ front q < Z.of_nat (length (data q)) →
  size q ≠ 0 → data q !! Z.to_nat (front q) = Some c →
  Improved.dequeue q
  = (Ok c,
     Queue (capacity q) (<[Z.to_nat (front q) := None]> (data q))
       ((front q + 1) mod capacity q) (size q - 1)).
Proof.
  intros Hc Hf Hne Hcell. unfold Improved.dequeue.
  rewrite (run_bind Improved.is_empty _ q (size q =? 0) q) by done.
  destruct (Z.eqb_spec (size q) 0); [done|].
  unfold bind, get, lift, set_data, set_front, set_size, ret.
  rewrite (getitem_in _ _ c), setitem_in by done. cbn.
  by rewrite py_mod_pos by lia.
Qed.

(** X3. Wrap-around: when a well-formed queue is full, a [dequeue]
    followed by an [enqueue] both return, the new record goes into the very
    cell the [dequeue] vacated (the old [front]), it becomes the last of
    the logical sequence, and the queue is full again. *)
Theorem wrap_around_reuse (q : CircularQueue) (d : car) :
  valid q = true → size q = capacity q →
  ∃ (c : car) (l : list car) q1 q2,
    Improved.content_list q = (Ok (Some <$> (c :: l)), q) ∧
    Improved.dequeue q = (Ok (Some c), q1) ∧
    Improved.enqueue (Some d) q1 = (Ok tt, q2) ∧
    Improved.content_list q2 = (Ok (Some <$> (l ++ [d])), q2) ∧
    data q2 = <[Z.to_nat (front q) := Some d]> (data q) ∧
    front q2 = (front q + 1) mod capacity q ∧
    size q2 = capacity q2 ∧ capacity q2 = capacity q.
Proof.
  intros V Hfull. pose proof (valid_repr q V) as R.
  pose proof R as (Hc & Hlen & Hf & Hs & Hsc & Hd).
  destruct (contents q) as [|c l] eqn:El; [cbn in Hs; lia|].
  destruct (repr_dequeue q c l R) as (q1 & E1 & R1 & Hc1 & Hf1).
  pose proof R1 as (_ & Hlen1 & Hfr1 & Hs1 & _).
  destruct (repr_enqueue q1 l R1 d) as (q2 & E2 & R2 & Hc2 & Hf2).
  { cbn in Hs. lia. }
  exists c, l, q1, q2.
  split; [by apply repr_content_list|]. split; [done|]. split; [done|].
  split; [by apply repr_content_list|].
  pose proof (Hd (front q) Hf) as Hfront.
  rewrite Z.sub_diag, Z.mod_0_l in Hfront by lia. cbn in Hfront.
  rewrite (dequeue_returns q (Some c)) in E1 by (done || lia).
  injection E1 as <-.
  rewrite enqueue_returns in E2 by (cbn in *; lia). injection E2 as <-.
  cbn in *.
  assert (((front q + 1) mod capacity q + (size q - 1)) mod capacity q
          = front q) as ->.
  { rewrite Zplus_mod_idemp_l.
    replace (front q + 1 + (size q - 1)) with (front q + 1 * capacity q)
      by lia.
    rewrite Z.mod_add, Z.mod_small; lia. }
  rewrite list_insert_insert_eq. repeat split; lia.
Qed.

Lemma wrap_around_reuse_witness :
  ∃ (c : car) (l : list car) q1 q2,
    Improved.content_list full_queue = (Ok (Some <$> (c :: l)), full_queue) ∧
    Improved.dequeue full_queue = (Ok (Some c), q1) ∧
    Improved.enqueue (Some car_e) q1 = (Ok tt, q2) ∧
    Improved.content_list q2 = (Ok (Some <$> (l ++ [car_e])), q2) ∧
    data q2 = <[2%nat := Some car_e]> (data full_queue) ∧
    front q2 = (2 + 1) mod 4 ∧
    size q2 = capacity q2 ∧ capacity q2 = 4.
Proof. apply (wrap_around_reuse full_queue car_e); reflexivity. Defined.

(** X4. What [remove_by_id] relies on: on a well-formed queue, an index
    returned by [find_index_by_id(key)] is always accepted by
    [remove_by_index], which then removes the earliest record with that
    key and keeps every other record, later duplicates included, in
    order. *)
Theorem find_then_remove (q : CircularQueue) (key : string) (idx : Z) :
  valid q = true →
  Improved.find_index_by_id key q = (Ok (Some idx), q) →
  ∃ (l : list car) (i : nat) (c : car) q',
    Improved.content_list q = (Ok (Some <$> l), q) ∧
    l !! i = Some c ∧ car_id c = key ∧
    (∀ (i' : nat) c', (i' < i)%nat → l !! i' = Some c' → car_id c' ≠ key) ∧
    Improved.remove_by_index idx q = (Ok true, q') ∧
    Improved.content_list q' = (Ok (Some <$> delete i l), q') ∧
    size q' = size q - 1 ∧ valid q' = true.
Proof.
  intros V E. pose proof (valid_repr q V) as R.
  pose proof R as (Hc & Hlen & Hf & Hs & Hsc & Hd).
  rewrite (repr_find q _ R) in E. injection E as E.
  destruct (list_find _ _) as [[k i]|] eqn:Ef; [|done].
  cbn in E. injection E as <-.
  apply list_find_range in Ef as (-> & Hi & HP & Hmin).
  rewrite Nat2Z.id in HP.
  destruct (contents q !! k) as [c|] eqn:Hl; [|done].
  cbn in HP. apply bool_decide_eq_true in HP.
  destruct (repr_remove_hit q _ R (Z.of_nat k) Hi) as (q' & Er & R' & _).
  rewrite Nat2Z.id in R'.
  exists (contents q), k, c, q'.
  split; [by apply repr_content_list|]. split; [done|]. split; [done|].
  split.
  { intros i' c' Hlt Hl' Hkey. apply (Hmin (Z.of_nat i')); [lia|].
    rewrite Nat2Z.id, Hl'. cbn. by apply bool_decide_eq_true. }
  split; [done|]. split; [by apply repr_content_list|].
  split; [|by apply repr_valid in R'].
  destruct R' as (_ & _ & _ & -> & _). rewrite length_delete by eauto. lia.
Qed.

Lemma find_then_remove_witness :
  ∃ (l : list car) (i : nat) (c : car) q',
    Improved.content_list wrapped_queue = (Ok (Some <$> l), wrapped_queue) ∧
    l !! i = Some c ∧ car_id c = "KA01AB1234" ∧
    (∀ (i' : nat) c', (i' < i)%nat → l !! i' = Some c' →
                      car_id c' ≠ "KA01AB1234") ∧
    Improved.remove_by_index 2 wrapped_queue = (Ok true, q') ∧
    Improved.content_list q' = (Ok (Some <$> delete i l), q') ∧
    size q' = 3 - 1 ∧ valid q' = true.
Proof.
  apply (find_then_remove wrapped_queue "KA01AB1234" 2); reflexivity.
Defined.

(** ** Methods that only read *)

Lemma readonly_ret {A} (a : A) : readonly (ret a).
Proof. by intros q. Qed.

Lemma readonly_get : readonly get.
Proof. by intros q. Qed.

Lemma readonly_lift {A} (r : res A) : readonly (lift r).
Proof. by intros q. Qed.

Lemma readonly_bind {A B} (m : M A) (k : A → M B) :
  readonly m → (∀ a, readonly (k a)) → readonly (bind m k).
Proof.
  intros Hm Hk q. unfold bind. specialize (Hm q).
  destruct (m q) as [[a|e] q1]; cbn in Hm; subst q1; [apply Hk|done].
Qed.

Lemma readonly_for_in {A R} (l : list A) (body : A → M (ctl R)) :
  (∀ x, readonly (body x)) → readonly (for_in l body).
Proof.
  intros Hb. induction l as [|x l IH]; cbn [for_in]; [apply readonly_ret|].
  apply readonly_bind; [apply Hb|].
  intros [| |r]; [apply IH|apply readonly_ret..].
Qed.

Lemma readonly_for_append {A B} (l : list A) (f : A → M B) :
  (∀ x, readonly (f x)) → readonly (for_append l f).
Proof.
  intros Hf. induction l as [|x l IH]; cbn [for_append];
    [apply readonly_ret|].
  apply readonly_bind; [apply Hf|]. intros y.
  apply readonly_bind; [apply IH|]. intros ys. apply readonly_ret.
Qed.

Ltac readonly_tac :=
  repeat first
    [ apply readonly_ret | apply readonly_get | apply readonly_lift
    | apply readonly_for_in; intros ? | apply readonly_for_append; intros ?
    | apply readonly_bind; [|intros ?]
    | match goal with |- readonly (if ?b then _ else _) => destruct b end ].

Lemma content_list_readonly : readonly Improved.content_list.
Proof. unfold Improved.content_list. readonly_tac. Qed.

(** X5. [is_full], [is_empty], [content_list] and [find_index_by_id] never
    write to the queue: in every state, well formed or not, and whether
    they return or raise, the queue is afterwards what it was. *)
Theorem readers_leave_queue_alone (key : string) :
  readonly Improved.is_full ∧ readonly Improved.is_empty ∧
  readonly Improved.content_list ∧
  readonly (Improved.find_index_by_id key) ∧
  readonly Basic.is_full ∧ readonly Basic.is_empty ∧
  readonly Basic.content_list.
Proof.
  unfold Improved.is_full, Improved.is_empty, Improved.content_list,
    Improved.find_index_by_id, Basic.is_full, Basic.is_empty,
    Basic.content_list.
  repeat split; readonly_tac.
Qed.

(** X6. A raising [enqueue] has written nothing, in every state, well
    formed or not, and in both variants; the same holds for [dequeue] as
    long as [capacity] is not zero. *)
Theorem raise_leaves_queue_unchanged (q : CircularQueue) :
  (∀ item e q', Improved.enqueue item q = (Raise e, q') → q' = q) ∧
  (∀ item e q', Basic.enqueue item q = (Raise e, q') → q' = q) ∧
  (capacity q ≠ 0 →
   (∀ e q', Improved.dequeue q = (Raise e, q') → q' = q) ∧
   (∀ e q', Basic.dequeue q = (Raise e, q') → q' = q)).
Proof.
  assert (∀ item e q', Improved.enqueue item q = (Raise e, q') → q' = q)
    as Henq.
  { intros item e q'. unfold Improved.enqueue.
    rewrite (run_bind Improved.is_full _ q (size q =? capacity q) q) by done.
    destruct (size q =? capacity q); [by intros [= _ <-]|].
    unfold bind, get, lift, py_mod.
    destruct (capacity q =? 0); [by intros [= _ <-]|].
    destruct (setitem _ _ _); [done|by intros [= _ <-]]. }
  assert (capacity q ≠ 0 →
          ∀ e q', Improved.dequeue q = (Raise e, q') → q' = q) as Hdeq.
  { intros Hc e q'. unfold Improved.dequeue.
    rewrite (run_bind Improved.is_empty _ q (size q =? 0) q) by done.
    destruct (size q =? 0); [by intros [= _ <-]|].
    unfold bind, get, lift, set_data.
    destruct (getitem _ _); [|by intros [= _ <-]].
    destruct (setitem _ _ _); [|by intros [= _ <-]].
    cbn. unfold py_mod. by destruct (Z.eqb_spec (capacity q) 0). }
  split; [done|]. split.
  - intros item e q' E. destruct (decide (size q = capacity q)) as [Hf|Hf].
    + rewrite basic_enqueue_full in E by done. by injection E as _ <-.
    + rewrite basic_enqueue_not_full in E by done. by eapply Henq.
  - intros Hc. split; [by apply Hdeq|].
    intros e q' E. destruct (decide (size q = 0)) as [He|He].
    + rewrite basic_dequeue_empty in E by done. by injection E as _ <-.
    + rewrite basic_dequeue_not_empty in E by done. by eapply Hdeq.
Qed.

Lemma raise_leaves_queue_unchanged_witness :
  (∀ e q', Improved.dequeue drained_queue = (Raise e, q') →
           q' = drained_queue) ∧
  (∀ e q', Basic.dequeue drained_queue = (Raise e, q') →
           q' = drained_queue).
Proof.
  apply (raise_leaves_queue_unchanged drained_queue). discriminate.
Defined.

(** ** Rebuilds *)

(** X7. A rebuild compacts the ring: after a successful [remove_by_index]
    and after any [resize_preserve] on a well-formed queue, [front] is 0
    and the array is the logical sequence followed by empty cells, so the
    record at logical position [k] sits in absolute cell [k]. *)
Theorem rebuild_compacts (q : CircularQueue) :
  valid q = true →
  (∀ idx q', Improved.remove_by_index idx q = (Ok true, q') →
     ∃ l' : list car,
       Improved.content_list q' = (Ok (Some <$> l'), q') ∧ front q' = 0 ∧
       data q' = (Some <$> l') ++ none_list (capacity q' - size q')) ∧
  (∀ n q', Improved.resize_preserve n q = (Ok tt, q') →
     ∃ l' : list car,
       Improved.content_list q' = (Ok (Some <$> l'), q') ∧ front q' = 0 ∧
       data q' = (Some <$> l') ++ none_list (capacity q' - size q')).
Proof.
  intros V. pose proof (valid_repr q V) as R. split.
  - intros idx q' E.
    destruct (in_window_cases q _ idx R) as [(i & Hi & ->)|Hout].
    + destruct (repr_remove_hit q _ R i Hi) as (q1 & E1 & R1 & Hf1 & _).
      rewrite E1 in E. injection E as <-. eexists.
      split; [by apply repr_content_list|]. split; [done|].
      by apply repr_normal_form.
    + rewrite (repr_remove_miss q _ R idx Hout) in E. discriminate.
  - intros n q' E.
    destruct (repr_resize q _ R n) as (q1 & E1 & R1 & Hf1 & _).
    rewrite E1 in E. injection E as <-. eexists.
    split; [by apply repr_content_list|]. split; [done|].
    by apply repr_normal_form.
Qed.

Lemma rebuild_compacts_witness :
  (∀ idx q', Improved.remove_by_index idx wrapped_queue = (Ok true, q') →
     ∃ l' : list car,
       Improved.content_list q' = (Ok (Some <$> l'), q') ∧ front q' = 0 ∧
       data q' = (Some <$> l') ++ none_list (capacity q' - size q')) ∧
  (∀ n q', Improved.resize_preserve n wrapped_queue = (Ok tt, q') →
     ∃ l' : list car,
       Improved.content_list q' = (Ok (Some <$> l'), q') ∧ front q' = 0 ∧
       data q' = (Some <$> l') ++ none_list (capacity q' - size q')).
Proof. apply (rebuild_compacts wrapped_queue). reflexivity. Defined.

Lemma repr_front0_eq q1 q2 l :
  repr q1 l → repr q2 l → front q1 = 0 → front q2 = 0 →
  capacity q1 = capacity q2 → q1 = q2.
Proof.
  intros R1 R2 Hf1 Hf2 Hc.
  pose proof (repr_normal_form q1 l R1 Hf1) as Hd1.
  pose proof (repr_normal_form q2 l R2 Hf2) as Hd2.
  destruct R1 as (_ & _ & _ & Hs1 & _), R2 as (_ & _ & _ & Hs2 & _).
  destruct q1, q2; cbn in *. by subst.
Qed.

(** X8. [resize_preserve] is idempotent on well-formed queues: asking for
    the same capacity a second time changes nothing at all. *)
Theorem resize_preserve_idempotent (q : CircularQueue) (n : Z) :
  valid q = true →
  ∃ q', Improved.resize_preserve n q = (Ok tt, q') ∧
        Improved.resize_preserve n q' = (Ok tt, q').
Proof.
  intros V. pose proof (valid_repr q V) as R.
  destruct (repr_resize q _ R n) as (q1 & E1 & R1 & Hf1 & Hc1).
  destruct (repr_resize q1 _ R1 n) as (q2 & E2 & R2 & Hf2 & Hc2).
  exists q1. split; [done|]. rewrite E2. f_equal.
  rewrite take_take, Nat.min_id in R2.
  apply (repr_front0_eq q2 q1 _ R2 R1); congruence.
Qed.

Lemma resize_preserve_idempotent_witness :
  ∃ q', Improved.resize_preserve 4 busy_queue = (Ok tt, q') ∧
        Improved.resize_preserve 4 q' = (Ok tt, q').
Proof. apply (resize_preserve_idempotent busy_queue 4). reflexivity. Defined.

(** ** Fullness and the cells *)

Lemma occupied_count_cons s d :
  occupied_count (s :: d)
  = (match s with Some _ => 1 | None => 0 end) + occupied_count d.
Proof.
  unfold occupied_count. destruct s as [c|].
  - rewrite filter_cons_True by done. cbn [length]. lia.
  - rewrite filter_cons_False; [lia|]. intros [c Hc]. discriminate.
Qed.

Lemma occupied_count_bounds d :
  0 ≤ occupied_count d ≤ Z.of_nat (length d).
Proof.
  induction d as [|s d IH]; [done|].
  rewrite occupied_count_cons. cbn [length]. destruct s; lia.
Qed.

Lemma occupied_count_all d :
  occupied_count d = Z.of_nat (length d) ↔ None ∉ d.
Proof.
  induction d as [|s d IH].
  - split; [intros _ H; by apply elem_of_nil in H|done].
  - rewrite occupied_count_cons, not_elem_of_cons. cbn [length].
    pose proof (occupied_count_bounds d). destruct s as [c|].
    + rewrite <- IH. split; [intros; split; [done|lia]|intros [_ ?]; lia].
    + split; [lia|intros [? _]; done].
Qed.

Lemma occupied_count_zero d :
  occupied_count d = 0 ↔ ∀ s, s ∈ d → s = None.
Proof.
  induction d as [|s d IH].
  - split; [intros _ s H; by apply elem_of_nil in H|done].
  - rewrite occupied_count_cons.
    pose proof (occupied_count_bounds d). split.
    + intros E s' [->|Hs']%elem_of_cons.
      * destruct s; [lia|done].
      * apply IH; [|done]. destruct s; lia.
    + intros Hall. rewrite (Hall s) by apply list_elem_of_here.
      apply IH. intros s' Hs'. apply Hall. by apply list_elem_of_further.
Qed.

(** X9. On a well-formed queue [is_full] answers [True] exactly when no
    cell of the array is empty, and [is_empty] answers [True] exactly when
    every cell is empty. *)
Theorem fullness_reads_the_cells (q : CircularQueue) :
  valid q = true →
  (Improved.is_full q = (Ok true, q) ↔ None ∉ data q) ∧
  (Improved.is_empty q = (Ok true, q) ↔ ∀ s, s ∈ data q → s = None).
Proof.
  intros V%valid_inv. destruct V as [Hc Hlen Hf Hs Hwin Hemp Hcount Hsingle].
  unfold Improved.is_full, Improved.is_empty, bind, get, ret. split.
  - rewrite <- occupied_count_all, Hcount, Hlen. split.
    + intros [= E]. by apply Z.eqb_eq.
    + intros ->. by rewrite Z.eqb_refl.
  - rewrite <- occupied_count_zero, Hcount. split.
    + intros [= E]. by apply Z.eqb_eq.
    + intros ->. done.
Qed.

Lemma fullness_reads_the_cells_witness :
  (Improved.is_full full_queue = (Ok true, full_queue)
   ↔ None ∉ data full_queue) ∧
  (Improved.is_empty full_queue = (Ok true, full_queue)
   ↔ ∀ s, s ∈ data full_queue → s = None).
Proof. apply (fullness_reads_the_cells full_queue). reflexivity. Defined.

(** ** Running handler bodies *)

Lemma ui_run_bind {X Y} (m : UI X) (k : X → UI Y) a x a' :
  m a = (Ok x, a') → ui_bind m k a = k x a'.
Proof. intros E. unfold ui_bind. by rewrite E. Qed.

Lemma ui_run_ret {X Y} (x : X) (k : X → UI Y) a :
  ui_bind (ui_ret x) k a = k x a.
Proof. done. Qed.

Lemma ui_run_lift {X Y} (x : X) (k : X → UI Y) a :
  ui_bind (ui_lift (Ok x)) k a = k x a.
Proof. done. Qed.

Lemma ui_run_call {Y} c (k : unit → UI Y) a :
  ui_bind (call c) k a = k tt {| queue := queue a; tk := tk a ++ [c] |}.
Proof. done. Qed.

Lemma ui_run_get_queue {Y} (k : CircularQueue → UI Y) a :
  ui_bind get_queue k a = k (queue a) a.
Proof. done. Qed.

Lemma ui_run_set_queue {Y} q (k : unit → UI Y) a :
  ui_bind (set_queue q) k a = k tt {| queue := q; tk := tk a |}.
Proof. done. Qed.

Lemma ui_run_on_queue {X Y} (m : M X) (k : X → UI Y) a x q' :
  m (queue a) = (Ok x, q') →
  ui_bind (on_queue m) k a = k x {| queue := q'; tk := tk a |}.
Proof. intros E. unfold ui_bind, on_queue. by rewrite E. Qed.

Lemma ui_run_is_full {Y} (k : bool → UI Y) a :
  ui_bind (on_queue Improved.is_full) k a
  = k (size (queue a) =? capacity (queue a)) a.
Proof. by destruct a. Qed.

Lemma ui_run_is_empty {Y} (k : bool → UI Y) a :
  ui_bind (on_queue Improved.is_empty) k a = k (size (queue a) =? 0) a.
Proof. by destruct a. Qed.

Ltac ui_run :=
  repeat first
    [ rewrite ui_run_ret | rewrite ui_run_call | rewrite ui_run_get_queue
    | rewrite ui_run_set_queue | rewrite ui_run_is_full
    | rewrite ui_run_is_empty ];
  cbn [queue tk].

Ltac ui_step E :=
  erewrite ui_run_on_queue by (cbn [queue]; exact E); cbv beta iota.

Ltac ui_end :=
  unfold call, ui_ret; cbn [queue tk]; rewrite <- ?app_assoc; cbn [app].

Lemma calm_app cs1 cs2 : calm (cs1 ++ cs2) = calm cs1 && calm cs2.
Proof. apply forallb_app. Qed.

(** What [update_dashboard] writes on a queue whose capacity is positive. *)
Lemma improved_dashboard_run a :
  0 < capacity (queue a) →
  ImprovedApp.update_dashboard a
  = (Ok tt,
     {| queue := queue a;
        tk := tk a ++
          [ label_config "occ_label"
              ("Occupancy: " +:+ pretty (size (queue a)) +:+ " / "
               +:+ pretty (capacity (queue a)));
            label_config "ptr_label"
              ("Front: "
               +:+ (if size (queue a) =? 0 then "-"
                    else pretty (front (queue a)))
               +:+ "    Rear: "
               +:+ (if size (queue a) =? 0 then "-"
                    else pretty ((front (queue a) + size (queue a) - 1)
                                 mod capacity (queue a))));
            label_config "free_label"
              ("Free Slots: "
               +:+ pretty (capacity (queue a) - size (queue a)));
            redraw_cars ] |}).
Proof.
  intros Hc. unfold ImprovedApp.update_dashboard. ui_run.
  destruct (size (queue a) =? 0); cbn [negb].
  - ui_run. by ui_end.
  - rewrite py_mod_pos by done.
    erewrite ui_run_bind by reflexivity. ui_run. by ui_end.
Qed.

Lemma improved_dashboard_calm a :
  0 < capacity (queue a) →
  ∃ cs, ImprovedApp.update_dashboard a
        = (Ok tt, {| queue := queue a; tk := tk a ++ cs |}) ∧
        calm cs = true.
Proof. intros Hc. rewrite improved_dashboard_run by done. by eexists. Qed.

Lemma basic_dashboard_calm a :
  ∃ cs, BasicApp.update_dashboard a
        = (Ok tt, {| queue := queue a; tk := tk a ++ cs |}) ∧
        calm cs = true.
Proof.
  unfold BasicApp.update_dashboard. ui_run. ui_end. by eexists.
Qed.

(** ** The handlers of [ImprovedApp], case by case *)

Section Improved_handlers.
Variable a : App.
Hypothesis V : valid (queue a) = true.

Lemma valid_capacity_pos : 0 < capacity (queue a).
Proof. apply valid_inv in V. destruct V. lia. Qed.

Lemma improved_park_full answer now :
  size (queue a) = capacity (queue a) →
  ImprovedApp.park_car answer now a
  = (Ok tt,
     {| queue := queue a;
        tk := tk a ++
              [showwarning "Full" "Parking is full. Consider resizing."] |}).
Proof.
  intros E. unfold ImprovedApp.park_car. ui_run.
  by rewrite E, Z.eqb_refl.
Qed.

Lemma improved_park_no_id answer now :
  size (queue a) ≠ capacity (queue a) → typed answer = None →
  ImprovedApp.park_car answer now a
  = (Ok tt,
     {| queue := queue a;
        tk := tk a ++
              [askstring "Car ID" "Enter Car ID (e.g. KA01AB1234):"] |}).
Proof.
  intros E T. unfold ImprovedApp.park_car. ui_run.
  destruct (Z.eqb_spec (size (queue a)) (capacity (queue a))); [done|].
  ui_run. by rewrite T.
Qed.

Lemma improved_park_id answer now car_id :
  size (queue a) ≠ capacity (queue a) → typed answer = Some car_id →
  ∃ q' cs,
    Improved.enqueue (Some (Car car_id now)) (queue a) = (Ok tt, q') ∧
    ImprovedApp.park_car answer now a
    = (Ok tt,
       {| queue := q';
          tk := tk a ++
                askstring "Car ID" "Enter Car ID (e.g. KA01AB1234):"
                :: redraw_cars :: cs |}) ∧
    calm cs = true.
Proof.
  intros E T. pose proof (valid_repr _ V) as R.
  pose proof R as (Hc & Hlen & Hf & Hs & Hsc & Hd).
  destruct (repr_enqueue _ _ R (Car car_id now)) as (q' & Eq & R' & Hc' & _);
    [lia|].
  destruct (improved_dashboard_calm
              {| queue := q';
                 tk := (tk a ++
                        [askstring "Car ID" "Enter Car ID (e.g. KA01AB1234):"])
                       ++ [redraw_cars] |})
    as (cs & Ed & Hcs); [cbn; lia|].
  exists q', cs. split; [done|]. split; [|done].
  unfold ImprovedApp.park_car. ui_run.
  destruct (Z.eqb_spec (size (queue a)) (capacity (queue a))); [done|].
  ui_run. rewrite T. unfold except_OverflowError.
  ui_step Eq. ui_run.
  rewrite Ed. cbn [queue tk]. by rewrite <- !app_assoc.
Qed.

Lemma improved_exit_empty now :
  size (queue a) = 0 →
  ImprovedApp.exit_car now a
  = (Ok tt,
     {| queue := queue a;
        tk := tk a ++ [showinfo "Empty" "Parking is empty."] |}).
Proof. intros E. unfold ImprovedApp.exit_car. ui_run. by rewrite E. Qed.

Lemma improved_exit_car now :
  size (queue a) ≠ 0 →
  ∃ c q' cs,
    Improved.dequeue (queue a) = (Ok (Some c), q') ∧
    ImprovedApp.exit_car now a
    = (Ok tt,
       {| queue := q';
          tk := tk a ++
                showinfo_exited "Car Exited" c now :: redraw_cars :: cs |}) ∧
    calm cs = true.
Proof.
  intros E. pose proof (valid_repr _ V) as R.
  pose proof R as (Hc & Hlen & Hf & Hs & Hsc & Hd).
  destruct (contents (queue a)) as [|c l] eqn:El; [cbn in Hs; lia|].
  destruct (repr_dequeue _ c l R) as (q' & Eq & R' & Hc' & _).
  destruct (improved_dashboard_calm
              {| queue := q';
                 tk := (tk a ++ [showinfo_exited "Car Exited" c now])
                       ++ [redraw_cars] |})
    as (cs & Ed & Hcs); [cbn; lia|].
  exists c, q', cs. split; [done|]. split; [|done].
  unfold ImprovedApp.exit_car. ui_run.
  destruct (Z.eqb_spec (size (queue a)) 0); [done|].
  ui_step Eq. ui_run.
  rewrite Ed. cbn [queue tk]. by rewrite <- !app_assoc.
Qed.

Lemma improved_resize_run val :
  ∃ q' cs,
    Improved.resize_preserve val (queue a) = (Ok tt, q') ∧
    ImprovedApp.resize (Some val) a
    = (Ok tt,
       {| queue := q';
          tk := tk a ++
                askinteger "Resize" "Enter new capacity (>=4):" 4
                :: draw_slots :: cs |}) ∧
    calm cs = true.
Proof.
  pose proof (valid_repr _ V) as R.
  destruct (repr_resize _ _ R val) as (q' & Eq & R' & _ & Hc').
  destruct (improved_dashboard_calm
              {| queue := q';
                 tk := (tk a ++
                        [askinteger "Resize" "Enter new capacity (>=4):" 4])
                       ++ [draw_slots] |})
    as (cs & Ed & Hcs); [cbn; lia|].
  exists q', cs. split; [done|]. split; [|done].
  unfold ImprovedApp.resize. ui_run.
  ui_step Eq. ui_run.
  rewrite Ed. cbn [queue tk]. by rewrite <- !app_assoc.
Qed.

Lemma improved_clear_run :
  ∃ cs,
    ImprovedApp.clear_all true a
    = (Ok tt,
       {| queue := Improved.init (capacity (queue a));
          tk := tk a ++
                askyesno "Confirm" "Clear all parked cars?"
                :: draw_slots :: cs |}) ∧
    calm cs = true.
Proof.
  destruct (improved_dashboard_calm
              {| queue := Improved.init (capacity (queue a));
                 tk := (tk a ++
                        [askyesno "Confirm" "Clear all parked cars?"])
                       ++ [draw_slots] |})
    as (cs & Ed & Hcs); [cbn; lia|].
  exists cs. split; [|done].
  unfold ImprovedApp.clear_all. ui_run. cbn [negb]. ui_run.
  rewrite Ed. cbn [queue tk]. by rewrite <- !app_assoc.
Qed.

End Improved_handlers.

Lemma repr_find_some q l key idx :
  repr q l →
  Improved.find_index_by_id key q = (Ok (Some idx), q) →
  ∃ (i : Z) (c : car),
    0 ≤ i < size q ∧ idx = (front q + i) mod capacity q ∧
    l !! Z.to_nat i = Some c ∧ car_id c = key ∧
    data q !! Z.to_nat idx = Some (Some c) ∧
    ∀ i', 0 ≤ i' < i → ∀ c', l !! Z.to_nat i' = Some c' → car_id c' ≠ key.
Proof.
  intros R E. pose proof R as (Hc & Hlen & Hf & Hs & Hsc & Hd).
  rewrite (repr_find q l R) in E. injection E as E.
  destruct (list_find _ _) as [[k i]|] eqn:Ef; [|done].
  cbn in E. injection E as <-.
  apply list_find_range in Ef as (-> & Hi & HP & Hmin).
  destruct (l !! Z.to_nat (Z.of_nat k)) as [c|] eqn:Hl; [|done].
  cbn in HP. apply bool_decide_eq_true in HP.
  exists (Z.of_nat k), c. repeat split; try done; try lia.
  - by rewrite (repr_cell q l R), Hl by lia.
  - intros i' Hi' c' Hl' Hkey. apply (Hmin i' Hi').
    rewrite Hl'. cbn. by apply bool_decide_eq_true.
Qed.

Section Improved_lookups.
Variable a : App.
Hypothesis V : valid (queue a) = true.

Lemma improved_search_empty answer now :
  size (queue a) = 0 →
  ImprovedApp.search_by_id answer now a
  = (Ok tt,
     {| queue := queue a;
        tk := tk a ++ [showinfo "Empty" "Parking empty."] |}).
Proof. intros E. unfold ImprovedApp.search_by_id. ui_run. by rewrite E. Qed.

Lemma improved_search_no_id answer now :
  size (queue a) ≠ 0 → typed answer = None →
  ImprovedApp.search_by_id answer now a
  = (Ok tt,
     {| queue := queue a;
        tk := tk a ++ [askstring "Search" "Enter car ID to search:"] |}).
Proof.
  intros E T. unfold ImprovedApp.search_by_id. ui_run.
  destruct (Z.eqb_spec (size (queue a)) 0); [done|]. ui_run. by rewrite T.
Qed.

Lemma improved_search_missing answer now car_id :
  size (queue a) ≠ 0 → typed answer = Some car_id →
  Improved.find_index_by_id car_id (queue a) = (Ok None, queue a) →
  ImprovedApp.search_by_id answer now a
  = (Ok tt,
     {| queue := queue a;
        tk := tk a ++
              [askstring "Search" "Enter car ID to search:";
               showinfo "Not found" ("Car " +:+ car_id +:+ " not found.")] |}).
Proof.
  intros E T Ef. unfold ImprovedApp.search_by_id. ui_run.
  destruct (Z.eqb_spec (size (queue a)) 0); [done|]. ui_run. rewrite T.
  ui_step Ef. by ui_end.
Qed.

Lemma improved_search_found answer now key idx :
  size (queue a) ≠ 0 → typed answer = Some key →
  Improved.find_index_by_id key (queue a) = (Ok (Some idx), queue a) →
  ∃ c : car,
    data (queue a) !! Z.to_nat idx = Some (Some c) ∧
    0 ≤ idx < capacity (queue a) ∧ car_id c = key ∧
    ImprovedApp.search_by_id answer now a
    = (Ok tt,
       {| queue := queue a;
          tk := tk a ++
                [askstring "Search" "Enter car ID to search:";
                 details_set_car idx c now; animate_highlight idx] |}).
Proof.
  intros E T Ef. pose proof (valid_repr _ V) as R.
  pose proof R as (Hc & Hlen & Hf & Hs & Hsc & Hd).
  destruct (repr_find_some _ _ _ _ R Ef) as (i & c & Hi & -> & Hl & Hk & Hcell & _).
  pose proof (ring_range (capacity (queue a)) (front (queue a) + i)
                ltac:(lia)) as Hr.
  exists c. split; [done|]. split; [done|]. split; [done|].
  unfold ImprovedApp.search_by_id. ui_run.
  destruct (Z.eqb_spec (size (queue a)) 0); [done|]. ui_run. rewrite T.
  ui_step Ef. unfold ImprovedApp.on_slot_click. ui_run.
  rewrite (getitem_in _ _ (Some c)) by (done || lia).
  rewrite ui_run_lift. ui_run. by ui_end.
Qed.

Lemma improved_remove_empty answer :
  size (queue a) = 0 →
  ImprovedApp.remove_by_id answer a
  = (Ok tt,
     {| queue := queue a;
        tk := tk a ++ [showinfo "Empty" "Parking empty."] |}).
Proof. intros E. unfold ImprovedApp.remove_by_id. ui_run. by rewrite E. Qed.

Lemma improved_remove_no_id answer :
  size (queue a) ≠ 0 → typed answer = None →
  ImprovedApp.remove_by_id answer a
  = (Ok tt,
     {| queue := queue a;
        tk := tk a ++ [askstring "Remove" "Enter car ID to remove:"] |}).
Proof.
  intros E T. unfold ImprovedApp.remove_by_id. ui_run.
  destruct (Z.eqb_spec (size (queue a)) 0); [done|]. ui_run. by rewrite T.
Qed.

Lemma improved_remove_missing answer car_id :
  size (queue a) ≠ 0 → typed answer = Some car_id →
  Improved.find_index_by_id car_id (queue a) = (Ok None, queue a) →
  ImprovedApp.remove_by_id answer a
  = (Ok tt,
     {| queue := queue a;
        tk := tk a ++
              [askstring "Remove" "Enter car ID to remove:";
               showinfo "Not found" ("Car " +:+ car_id +:+ " not found.")] |}).
Proof.
  intros E T Ef. unfold ImprovedApp.remove_by_id. ui_run.
  destruct (Z.eqb_spec (size (queue a)) 0); [done|]. ui_run. rewrite T.
  ui_step Ef. by ui_end.
Qed.

Lemma improved_remove_found answer car_id idx :
  size (queue a) ≠ 0 → typed answer = Some car_id →
  Improved.find_index_by_id car_id (queue a) = (Ok (Some idx), queue a) →
  ∃ q' cs,
    Improved.remove_by_index idx (queue a) = (Ok true, q') ∧
    ImprovedApp.remove_by_id answer a
    = (Ok tt,
       {| queue := q';
          tk := tk a ++
                askstring "Remove" "Enter car ID to remove:"
                :: showinfo "Removed"
                     ("Car " +:+ car_id +:+ " removed from parking.")
                :: redraw_cars :: cs |}) ∧
    calm cs = true.
Proof.
  intros E T Ef. pose proof (valid_repr _ V) as R.
  destruct (repr_find_some _ _ _ _ R Ef) as (i & c & Hi & -> & _).
  destruct (repr_remove_hit _ _ R i Hi) as (q' & Er & R' & _ & Hc').
  pose proof R as (Hc & _).
  destruct (improved_dashboard_calm
              {| queue := q';
                 tk := ((tk a ++
                         [askstring "Remove" "Enter car ID to remove:"])
                        ++ [showinfo "Removed"
                              ("Car " +:+ car_id +:+ " removed from parking.")])
                       ++ [redraw_cars] |})
    as (cs & Ed & Hcs); [cbn; lia|].
  exists q', cs. split; [done|]. split; [|done].
  unfold ImprovedApp.remove_by_id. ui_run.
  destruct (Z.eqb_spec (size (queue a)) 0); [done|]. ui_run. rewrite T.
  ui_step Ef. ui_step Er. ui_run.
  rewrite Ed. cbn [queue tk]. by rewrite <- !app_assoc.
Qed.

End Improved_lookups.

Lemma step_valid o q : valid q = true → valid (step o q) = true.
Proof.
  intros R%valid_repr. destruct (step_repr o q _ R) as [l' R'].
  by apply repr_valid in R'.
Qed.

Lemma valid_find q key :
  valid q = true → ∃ r, Improved.find_index_by_id key q = (Ok r, q).
Proof. intros R%valid_repr. rewrite (repr_find q _ R). by eexists. Qed.

Lemma typed_cases answer : typed answer = None ∨ ∃ s, typed answer = Some s.
Proof. destruct (typed answer); eauto. Qed.

(** ** A whole session of [ImprovedApp] *)

Lemma improved_handler_safe act a :
  valid (queue a) = true →
  ∃ q' cs,
    improved_handler act a = (Ok tt, {| queue := q'; tk := tk a ++ cs |}) ∧
    valid q' = true ∧ calm cs = true.
Proof.
  intros V. destruct act as [answer now|now|answer now|answer|answer|confirmed];
    cbn [improved_handler].
  - destruct (decide (size (queue a) = capacity (queue a))) as [E|E].
    { rewrite improved_park_full by done. by eexists _, _. }
    destruct (typed_cases answer) as [T|[s T]].
    { rewrite improved_park_no_id by done. by eexists _, _. }
    destruct (improved_park_id a V answer now s E T) as (q' & cs & Eq & -> & Hcs).
    exists q'. eexists. split; [done|]. split; [|done].
    pose proof (step_valid (Enqueue (Car s now)) _ V) as V'.
    cbn [step] in V'. by rewrite Eq in V'.
  - destruct (decide (size (queue a) = 0)) as [E|E].
    { rewrite improved_exit_empty by done. by eexists _, _. }
    destruct (improved_exit_car a V now E) as (c & q' & cs & Eq & -> & Hcs).
    exists q'. eexists. split; [done|]. split; [|done].
    pose proof (step_valid Dequeue _ V) as V'.
    cbn [step] in V'. by rewrite Eq in V'.
  - destruct (decide (size (queue a) = 0)) as [E|E].
    { rewrite improved_search_empty by done. by eexists _, _. }
    destruct (typed_cases answer) as [T|[s T]].
    { rewrite improved_search_no_id by done. by eexists _, _. }
    destruct (valid_find _ s V) as [[idx|] Ef].
    + destruct (improved_search_found a V answer now s idx E T Ef)
        as (c & _ & _ & _ & ->).
      by eexists _, _.
    + rewrite (improved_search_missing a answer now s) by done.
      by eexists _, _.
  - destruct (decide (size (queue a) = 0)) as [E|E].
    { rewrite improved_remove_empty by done. by eexists _, _. }
    destruct (typed_cases answer) as [T|[s T]].
    { rewrite improved_remove_no_id by done. by eexists _, _. }
    destruct (valid_find _ s V) as [[idx|] Ef].
    + destruct (improved_remove_found a V answer s idx E T Ef)
        as (q' & cs & Er & -> & Hcs).
      exists q'. eexists. split; [done|]. split; [|done].
      pose proof (step_valid (RemoveByIndex idx) _ V) as V'.
      cbn [step] in V'. by rewrite Er in V'.
    + rewrite (improved_remove_missing a answer s) by done.
      by eexists _, _.
  - destruct answer as [val|].
    + destruct (improved_resize_run a V val) as (q' & cs & Eq & -> & Hcs).
      exists q'. eexists. split; [done|]. split; [|done].
      pose proof (step_valid (ResizePreserve val) _ V) as V'.
      cbn [step] in V'. by rewrite Eq in V'.
    + unfold ImprovedApp.resize. ui_run. ui_end. by eexists _, _.
  - destruct confirmed.
    + destruct (improved_clear_run a) as (cs & -> & Hcs).
      eexists _, _. split; [done|]. split; [|done].
      apply repr_valid with [], repr_init.
    + unfold ImprovedApp.clear_all. ui_run. cbn [negb]. ui_end.
      by eexists _, _.
Qed.

Lemma session_safe {Act} (handler : Act → UI unit) acts :
  (∀ act a, valid (queue a) = true →
     ∃ q' cs, handler act a = (Ok tt, {| queue := q'; tk := tk a ++ cs |}) ∧
              valid q' = true ∧ calm cs = true) →
  ∀ a, valid (queue a) = true → calm (tk a) = true →
  Forall (λ o, o.1 = Ok tt ∧ valid (queue o.2) = true ∧ calm (tk o.2) = true)
         (session handler acts a).
Proof.
  intros Hsafe. induction acts as [|act acts IH]; intros a V Hcalm;
    cbn [session]; [constructor|].
  destruct (Hsafe act a V) as (q' & cs & E & V' & Hcs).
  assert (calm (tk a ++ cs) = true) as Hcalm'
    by (rewrite calm_app, Hcalm, Hcs; done).
  rewrite E. constructor; [done|]. by apply IH.
Qed.

(** X17. A session of [ImprovedApp]: from the freshly built application,
    whatever buttons are pressed and whatever the dialogs answer, no handler
    ever raises, the queue stays well formed, and neither error box
    ("Queue full", "Could not remove car.") is ever shown. *)
Theorem improved_session_safe (acts : list action) :
  Forall (λ o, o.1 = Ok tt ∧ valid (queue o.2) = true ∧ calm (tk o.2) = true)
         (ImprovedApp.init
          :: session improved_handler acts ImprovedApp.init.2).
Proof.
  constructor; [by vm_compute|].
  apply session_safe; [apply improved_handler_safe|by vm_compute..].
Qed.

(** ** The handlers of [BasicApp] *)

Lemma for_in_ext {A R} (b1 b2 : A → M (ctl R)) l :
  (∀ x q, b1 x q = b2 x q) → ∀ q, for_in l b1 q = for_in l b2 q.
Proof.
  intros Hb. induction l as [|x l IH]; intros q; [done|].
  cbn [for_in]. unfold bind. rewrite Hb.
  destruct (b2 x q) as [[[| |r]|e] q1]; [apply IH|done..].
Qed.

(** The rebuilding loop of [resize_capacity] and that of [resize_preserve]
    are the same loop: the guard keeps [enqueue] away from a full queue,
    where alone the two variants differ. *)
Lemma refill_eq items q :
  BasicApp.refill items q
  = for_in items (λ it,
      let* full := Improved.is_full in
      if full then ret (@Break unit) else
      Improved.enqueue it ;; ret Next) q.
Proof.
  unfold BasicApp.refill. apply for_in_ext. clear. intros it q.
  rewrite (run_bind Basic.is_full _ q (size q =? capacity q) q) by done.
  rewrite (run_bind Improved.is_full _ q (size q =? capacity q) q) by done.
  destruct (Z.eqb_spec (size q) (capacity q)) as [|Hnf]; [done|].
  unfold bind. by rewrite basic_enqueue_not_full.
Qed.

(** On an array as long as a positive [capacity] says, the loop returns
    whatever the cells it is given. *)
Lemma refill_total items : ∀ q,
  0 < capacity q → Z.of_nat (length (data q)) = capacity q →
  ∃ q', BasicApp.refill items q = (Ok None, q') ∧
        capacity q' = capacity q.
Proof.
  unfold BasicApp.refill.
  induction items as [|it items IH]; intros q Hc Hlen; [by exists q|].
  cbn [for_in].
  rewrite (run_bind
             (let* full := Basic.is_full in
              if full then ret (@Break unit) else
              Basic.enqueue it ;; ret Next) _ q
             (if size q =? capacity q then Break else Next)
             (if size q =? capacity q then q
              else Queue (capacity q)
                     (<[Z.to_nat ((front q + size q) mod capacity q) := it]>
                        (data q))
                     (front q) (size q + 1))).
  2:{ rewrite (run_bind Basic.is_full _ q (size q =? capacity q) q) by done.
      destruct (Z.eqb_spec (size q) (capacity q)) as [|Hnf]; [done|].
      unfold bind. rewrite basic_enqueue_not_full by done.
      by rewrite enqueue_returns by done. }
  destruct (Z.eqb_spec (size q) (capacity q)) as [|Hnf]; [by exists q|].
  destruct (IH (Queue (capacity q)
                  (<[Z.to_nat ((front q + size q) mod capacity q) := it]>
                     (data q))
                  (front q) (size q + 1)))
    as (q' & E & Hc'); [done|by cbn; rewrite length_insert|].
  by exists q'.
Qed.

Lemma ui_run_on_queue_raise {X Y} (m : M X) (k : X → UI Y) a e q' :
  m (queue a) = (Raise e, q') →
  ui_bind (on_queue m) k a = (Raise e, {| queue := q'; tk := tk a |}).
Proof. intros E. unfold ui_bind, on_queue. by rewrite E. Qed.

Lemma basic_resize_raise a val e q1 :
  Improved.content_list (queue a) = (Raise e, q1) →
  Improved.resize_preserve val (queue a) = (Raise e, queue a) ∧
  BasicApp.resize_capacity (Some val) a
  = (Raise e,
     {| queue := queue a;
        tk := tk a ++ [askinteger "Resize" "Enter new capacity (>=4):" 4] |}).
Proof.
  intros Ec. pose proof (content_list_readonly (queue a)) as Hro.
  rewrite Ec in Hro. cbn in Hro. subst q1. split.
  - unfold Improved.resize_preserve. by rewrite (run_bind_raise _ _ _ _ _ Ec).
  - unfold BasicApp.resize_capacity. ui_run.
    change Basic.content_list with Improved.content_list.
    erewrite ui_run_on_queue_raise by (cbn [queue]; exact Ec). done.
Qed.

Lemma basic_resize_return a val items q1 :
  Improved.content_list (queue a) = (Ok items, q1) →
  ∃ q' cs,
    Improved.resize_preserve val (queue a) = (Ok tt, q') ∧
    BasicApp.refill items (Basic.init val) = (Ok None, q') ∧
    BasicApp.resize_capacity (Some val) a
    = (Ok tt,
       {| queue := q';
          tk := tk a ++
                askinteger "Resize" "Enter new capacity (>=4):" 4
                :: draw_slots :: cs |}) ∧
    calm cs = true.
Proof.
  intros Ec. pose proof (content_list_readonly (queue a)) as Hro.
  rewrite Ec in Hro. cbn in Hro. subst q1.
  destruct (refill_total items (Basic.init val)) as (q' & E & Hc').
  { cbn. lia. }
  { cbn. rewrite length_none_list; lia. }
  destruct (basic_dashboard_calm
              {| queue := q';
                 tk := (tk a ++
                        [askinteger "Resize" "Enter new capacity (>=4):" 4])
                       ++ [draw_slots] |}) as (cs & Ed & Hcs).
  exists q', cs. split; [|split; [done|split; [|done]]].
  - unfold Improved.resize_preserve. rewrite (run_bind _ _ _ _ _ Ec). run.
    rewrite refill_eq in E. unfold Basic.init in E. cbv zeta in E.
    by rewrite (run_bind _ _ _ _ _ E).
  - unfold BasicApp.resize_capacity. ui_run.
    change Basic.content_list with Improved.content_list.
    ui_step Ec. unfold ui_bind at 1, on_local. rewrite E.
    cbv beta iota zeta. cbn [snd]. ui_run.
    rewrite Ed. cbn [queue tk]. by rewrite <- !app_assoc.
Qed.

(** X14. The resize of [BasicApp], which rebuilds into a new queue object
    by hand, and [resize_preserve] of [improved_app.py] come to the same: in
    every state of the queue and for every requested capacity they return
    or raise alike and leave the same queue behind. *)
Theorem basic_resize_matches_improved (a : App) (val : Z) :
  (BasicApp.resize_capacity (Some val) a).1
  = (Improved.resize_preserve val (queue a)).1 ∧
  queue (BasicApp.resize_capacity (Some val) a).2
  = (Improved.resize_preserve val (queue a)).2.
Proof.
  destruct (Improved.content_list (queue a)) as [[items|e] q1] eqn:Ec.
  - destruct (basic_resize_return a val items q1 Ec)
      as (q' & cs & -> & _ & -> & _). done.
  - destruct (basic_resize_raise a val e q1 Ec) as [-> ->]. done.
Qed.

Lemma ui_run_except {Y} (body handler : UI unit) (k : unit → UI Y) a a' :
  body a = (Ok tt, a') →
  ui_bind (except_OverflowError body handler) k a = k tt a'.
Proof. intros E. unfold ui_bind, except_OverflowError. by rewrite E. Qed.

Lemma on_queue_run {X} (m : M X) a r q' :
  m (queue a) = (r, q') → on_queue m a = (r, {| queue := q'; tk := tk a |}).
Proof. intros E. unfold on_queue. by rewrite E. Qed.

(** ** A whole session of [BasicApp] *)

Lemma basic_handler_safe act a :
  valid (queue a) = true →
  ∃ q' cs,
    basic_handler act a = (Ok tt, {| queue := q'; tk := tk a ++ cs |}) ∧
    valid q' = true ∧ calm cs = true.
Proof.
  intros V. pose proof (valid_repr _ V) as R.
  pose proof R as (Hc & Hlen & Hf & Hs & Hsc & Hd).
  destruct act as [answer now|now|answer|]; cbn [basic_handler].
  - unfold BasicApp.park_car. change Basic.is_full with Improved.is_full.
    ui_run.
    destruct (Z.eqb_spec (size (queue a)) (capacity (queue a))) as [E|E].
    { ui_end. by eexists _, _. }
    ui_run. destruct (typed answer) as [s|]; [|ui_end; by eexists _, _].
    destruct (repr_enqueue _ _ R (Car s now)) as (q' & Eq & R' & _); [lia|].
    rewrite <- basic_enqueue_not_full in Eq by done.
    erewrite ui_run_except
      by (apply on_queue_run; cbn [queue]; exact Eq).
    ui_run.
    destruct (basic_dashboard_calm
                {| queue := q';
                   tk := (tk a ++
                          [askstring "Car ID"
                             "Enter car ID (e.g. KA01AB1234):"])
                         ++ [redraw_cars] |}) as (cs & -> & Hcs).
    cbn [queue tk]. rewrite <- !app_assoc. eexists _, _.
    split; [done|]. split; [by apply repr_valid in R'|done].
  - unfold BasicApp.exit_car. change Basic.is_empty with Improved.is_empty.
    ui_run. destruct (Z.eqb_spec (size (queue a)) 0) as [E|E].
    { ui_end. by eexists _, _. }
    destruct (contents (queue a)) as [|c l] eqn:El; [cbn in Hs; lia|].
    destruct (repr_dequeue _ c l R) as (q' & Eq & R' & _).
    rewrite <- basic_dequeue_not_empty in Eq by done.
    ui_step Eq. ui_run.
    destruct (basic_dashboard_calm
                {| queue := q';
                   tk := (tk a ++ [showinfo_exited "Car Exited" c now])
                         ++ [redraw_cars] |}) as (cs & -> & Hcs).
    cbn [queue tk]. rewrite <- !app_assoc. eexists _, _.
    split; [done|]. split; [by apply repr_valid in R'|done].
  - destruct answer as [val|].
    + destruct (basic_resize_return a val _ _ (repr_content_list _ _ R))
        as (q' & cs & Er & _ & -> & Hcs).
      eexists _, _. split; [done|]. split; [|done].
      pose proof (step_valid (ResizePreserve val) _ V) as V'.
      cbn [step] in V'. by rewrite Er in V'.
    + unfold BasicApp.resize_capacity. ui_run. ui_end. by eexists _, _.
  - unfold BasicApp.clear_all. ui_run.
    destruct (basic_dashboard_calm
                {| queue := Basic.init (capacity (queue a));
                   tk := tk a ++ [draw_slots] |}) as (cs & -> & Hcs).
    cbn [queue tk]. rewrite <- !app_assoc. eexists _, _.
    split; [done|]. split; [|done]. apply repr_valid with [], repr_init.
Qed.

(** X18. A session of [BasicApp]: from the freshly built application,
    whatever buttons are pressed and whatever the dialogs answer, no handler
    ever raises, the queue stays well formed, and the "Queue is full" error
    box is never shown. *)
Theorem basic_session_safe (acts : list basic_action) :
  Forall (λ o, o.1 = Ok tt ∧ valid (queue o.2) = true ∧ calm (tk o.2) = true)
         (BasicApp.init :: session basic_handler acts BasicApp.init.2).
Proof.
  constructor; [by vm_compute|].
  apply session_safe; [apply basic_handler_safe|by vm_compute..].
Qed.

(** ** What each button of [ImprovedApp] does *)

(** X10. [park_car] on a well-formed queue.  When the queue is full it
    shows the "Full" warning without asking for an id and leaves the queue
    alone.  Otherwise it asks for the id; on a cancelled or empty answer the
    queue is left alone; on any other answer the car, stamped with the
    current time, becomes the last of the logical sequence, and the
    "Queue full" error box is not shown. *)
Theorem park_car_parks (a : App) (answer : option string) (now : Z) :
  valid (queue a) = true →
  (size (queue a) = capacity (queue a) →
   ImprovedApp.park_car answer now a
   = (Ok tt,
      {| queue := queue a;
         tk := tk a ++
               [showwarning "Full" "Parking is full. Consider resizing."]
      |})) ∧
  (size (queue a) ≠ capacity (queue a) → typed answer = None →
   ImprovedApp.park_car answer now a
   = (Ok tt,
      {| queue := queue a;
         tk := tk a ++
               [askstring "Car ID" "Enter Car ID (e.g. KA01AB1234):"] |})) ∧
  (size (queue a) ≠ capacity (queue a) →
   ∀ key, typed answer = Some key →
     ∃ (l : list car) q' cs,
       Improved.content_list (queue a) = (Ok (Some <$> l), queue a) ∧
       ImprovedApp.park_car answer now a
       = (Ok tt,
          {| queue := q';
             tk := tk a ++
                   askstring "Car ID" "Enter Car ID (e.g. KA01AB1234):"
                   :: redraw_cars :: cs |}) ∧
       Improved.content_list q' = (Ok (Some <$> (l ++ [Car key now])), q') ∧
       calm cs = true).
Proof.
  intros V. split; [|split].
  - by apply improved_park_full.
  - by apply improved_park_no_id.
  - intros E key T. pose proof (valid_repr _ V) as R.
    pose proof R as (_ & _ & _ & _ & Hsc & _).
    destruct (improved_park_id a V answer now key E T)
      as (q' & cs & Eq & Ep & Hcs).
    destruct (repr_enqueue _ _ R (Car key now)) as (q1 & Eq1 & R1 & _); [lia|].
    rewrite Eq in Eq1. injection Eq1 as <-.
    exists (contents (queue a)), q', cs.
    split; [by apply repr_content_list|]. split; [done|].
    split; [by apply repr_content_list|done].
Qed.

Lemma park_car_parks_witness :
  ∃ (l : list car) q' cs,
    Improved.content_list wrapped_queue = (Ok (Some <$> l), wrapped_queue) ∧
    ImprovedApp.park_car (Some "KA09XY0001") 60
      {| queue := wrapped_queue; tk := [] |}
    = (Ok tt,
       {| queue := q';
          tk := [] ++
                askstring "Car ID" "Enter Car ID (e.g. KA01AB1234):"
                :: redraw_cars :: cs |}) ∧
    Improved.content_list q'
    = (Ok (Some <$> (l ++ [Car "KA09XY0001" 60])), q') ∧
    calm cs = true.
Proof.
  apply (park_car_parks {| queue := wrapped_queue; tk := [] |}
           (Some "KA09XY0001") 60 eq_refl);
    [discriminate|reflexivity].
Defined.

(** X11. [exit_car] on a well-formed queue.  When the queue is empty it
    shows "Parking is empty." and leaves the queue alone.  Otherwise the
    car that leaves, named in the "Car Exited" box, is the first of the
    logical sequence, and the others stay in order. *)
Theorem exit_car_releases_front (a : App) (now : Z) :
  valid (queue a) = true →
  (size (queue a) = 0 →
   ImprovedApp.exit_car now a
   = (Ok tt,
      {| queue := queue a;
         tk := tk a ++ [showinfo "Empty" "Parking is empty."] |})) ∧
  (size (queue a) ≠ 0 →
   ∃ (c : car) (l : list car) q' cs,
     Improved.content_list (queue a) = (Ok (Some <$> (c :: l)), queue a) ∧
     ImprovedApp.exit_car now a
     = (Ok tt,
        {| queue := q';
           tk := tk a ++
                 showinfo_exited "Car Exited" c now :: redraw_cars :: cs |}) ∧
     Improved.content_list q' = (Ok (Some <$> l), q') ∧
     calm cs = true).
Proof.
  intros V. split; [by apply improved_exit_empty|].
  intros E. pose proof (valid_repr _ V) as R.
  destruct (improved_exit_car a V now E) as (c & q' & cs & Eq & Ex & Hcs).
  pose proof R as (_ & _ & _ & Hs & _).
  destruct (contents (queue a)) as [|c1 l] eqn:El; [cbn in Hs; lia|].
  destruct (repr_dequeue _ c1 l R) as (q1 & Eq1 & R1 & _).
  rewrite Eq in Eq1. injection Eq1 as -> <-.
  exists c1, l, q', cs.
  split; [by apply repr_content_list|]. split; [done|].
  split; [by apply repr_content_list|done].
Qed.

Lemma exit_car_releases_front_witness :
  ∃ (c : car) (l : list car) q' cs,
    Improved.content_list wrapped_queue
    = (Ok (Some <$> (c :: l)), wrapped_queue) ∧
    ImprovedApp.exit_car 99 {| queue := wrapped_queue; tk := [] |}
    = (Ok tt,
       {| queue := q';
          tk := [] ++
                showinfo_exited "Car Exited" c 99 :: redraw_cars :: cs |}) ∧
    Improved.content_list q' = (Ok (Some <$> l), q') ∧
    calm cs = true.
Proof.
  apply (exit_car_releases_front {| queue := wrapped_queue; tk := [] |} 99
           eq_refl).
  discriminate.
Defined.

(** X12. [remove_by_id] on a well-formed, non-empty queue, for an id the
    user typed.  If no parked car has the id, "not found" is shown and the
    queue is left alone.  If one has, the earliest such car is removed, the
    others stay in order, "removed from parking" is shown and the
    "Could not remove car." error box is not. *)
Theorem remove_by_id_removes_first (a : App) (answer : option string)
    (key : string) :
  valid (queue a) = true → size (queue a) ≠ 0 → typed answer = Some key →
  ∃ l : list car,
    Improved.content_list (queue a) = (Ok (Some <$> l), queue a) ∧
    ((∀ c, c ∈ l → car_id c ≠ key) →
     ImprovedApp.remove_by_id answer a
     = (Ok tt,
        {| queue := queue a;
           tk := tk a ++
                 [askstring "Remove" "Enter car ID to remove:";
                  showinfo "Not found" ("Car " +:+ key +:+ " not found.")]
        |})) ∧
    (∀ (i : nat) c,
       l !! i = Some c → car_id c = key →
       (∀ (i' : nat) c', (i' < i)%nat → l !! i' = Some c' →
                         car_id c' ≠ key) →
       ∃ q' cs,
         ImprovedApp.remove_by_id answer a
         = (Ok tt,
            {| queue := q';
               tk := tk a ++
                     askstring "Remove" "Enter car ID to remove:"
                     :: showinfo "Removed"
                          ("Car " +:+ key +:+ " removed from parking.")
                     :: redraw_cars :: cs |}) ∧
         Improved.content_list q' = (Ok (Some <$> delete i l), q') ∧
         calm cs = true).
Proof.
  intros V E T. pose proof (valid_repr _ V) as R.
  pose proof R as (Hc & Hlen & Hf & Hs & Hsc & Hd).
  exists (contents (queue a)). split; [by apply repr_content_list|].
  destruct (valid_find _ key V) as [[idx|] Ef].
  - destruct (repr_find_some _ _ _ _ R Ef)
      as (i0 & c0 & Hi0 & Hidx & Hl0 & Hk0 & _ & Hmin0).
    split.
    { intros Hnone. destruct (Hnone c0); [|done].
      apply list_elem_of_lookup. eauto. }
    intros i c Hl Hk Hmin.
    assert (i = Z.to_nat i0) as ->.
    { pose proof (lookup_lt_Some _ _ _ Hl) as Hlt.
      destruct (Nat.lt_trichotomy i (Z.to_nat i0)) as [Hc1|[->|Hc2]];
        [|done|].
      - destruct (Hmin0 (Z.of_nat i) ltac:(lia) c); [|done].
        by rewrite Nat2Z.id.
      - by destruct (Hmin (Z.to_nat i0) c0 Hc2 Hl0). }
    destruct (improved_remove_found a V answer key idx E T Ef)
      as (q' & cs & Er & Ex & Hcs).
    subst idx.
    destruct (repr_remove_hit _ _ R i0 Hi0) as (q1 & Er1 & R1 & _).
    rewrite Er in Er1. injection Er1 as <-.
    exists q', cs. split; [done|]. split; [by apply repr_content_list|done].
  - split.
    { intros _. by apply improved_remove_missing. }
    intros i c Hl Hk _. exfalso.
    rewrite (repr_find _ _ R) in Ef. injection Ef as Ef.
    destruct (list_find _ _) as [[??]|] eqn:Efind; [done|].
    pose proof (lookup_lt_Some _ _ _ Hl) as Hlt.
    apply list_find_range_None with (i := Z.of_nat i) in Efind; [|lia].
    apply Efind. rewrite Nat2Z.id, Hl. cbn. by apply bool_decide_eq_true.
Qed.

Lemma remove_by_id_removes_first_witness :
  let a := {| queue := wrapped_queue; tk := [] |} in
  let answer := Some "KA01AB1234" in
  let key := "KA01AB1234" in
  ∃ l : list car,
    Improved.content_list (queue a) = (Ok (Some <$> l), queue a) ∧
    ((∀ c, c ∈ l → car_id c ≠ key) →
     ImprovedApp.remove_by_id answer a
     = (Ok tt,
        {| queue := queue a;
           tk := tk a ++
                 [askstring "Remove" "Enter car ID to remove:";
                  showinfo "Not found" ("Car " +:+ key +:+ " not found.")]
        |})) ∧
    (∀ (i : nat) c,
       l !! i = Some c → car_id c = key →
       (∀ (i' : nat) c', (i' < i)%nat → l !! i' = Some c' →
                         car_id c' ≠ key) →
       ∃ q' cs,
         ImprovedApp.remove_by_id answer a
         = (Ok tt,
            {| queue := q';
               tk := tk a ++
                     askstring "Remove" "Enter car ID to remove:"
                     :: showinfo "Removed"
                          ("Car " +:+ key +:+ " removed from parking.")
                     :: redraw_cars :: cs |}) ∧
         Improved.content_list q' = (Ok (Some <$> delete i l), q') ∧
         calm cs = true).
Proof.
  intros a answer key.
  apply (remove_by_id_removes_first a answer key);
    [reflexivity|discriminate|reflexivity].
Defined.

(** X13. [search_by_id] on a well-formed, non-empty queue, for an id the
    user typed, never changes the queue.  If no parked car has the id it
    shows "not found"; otherwise the details line shows the earliest car
    with that id, at the absolute slot that car occupies, and that slot is
    highlighted: the click it simulates never lands on an empty slot. *)
Theorem search_by_id_shows_first (a : App) (answer : option string)
    (key : string) (now : Z) :
  valid (queue a) = true → size (queue a) ≠ 0 → typed answer = Some key →
  ∃ l : list car,
    Improved.content_list (queue a) = (Ok (Some <$> l), queue a) ∧
    ((∀ c, c ∈ l → car_id c ≠ key) →
     ImprovedApp.search_by_id answer now a
     = (Ok tt,
        {| queue := queue a;
           tk := tk a ++
                 [askstring "Search" "Enter car ID to search:";
                  showinfo "Not found" ("Car " +:+ key +:+ " not found.")]
        |})) ∧
    (∀ (i : nat) c,
       l !! i = Some c → car_id c = key →
       (∀ (i' : nat) c', (i' < i)%nat → l !! i' = Some c' →
                         car_id c' ≠ key) →
       let idx := (front (queue a) + Z.of_nat i) mod capacity (queue a) in
       data (queue a) !! Z.to_nat idx = Some (Some c) ∧
       ImprovedApp.search_by_id answer now a
       = (Ok tt,
          {| queue := queue a;
             tk := tk a ++
                   [askstring "Search" "Enter car ID to search:";
                    details_set_car idx c now; animate_highlight idx] |})).
Proof.
  intros V E T. pose proof (valid_repr _ V) as R.
  pose proof R as (Hc & Hlen & Hf & Hs & Hsc & Hd).
  exists (contents (queue a)). split; [by apply repr_content_list|].
  destruct (valid_find _ key V) as [[idx|] Ef].
  - destruct (repr_find_some _ _ _ _ R Ef)
      as (i0 & c0 & Hi0 & Hidx & Hl0 & Hk0 & Hcell0 & Hmin0).
    split.
    { intros Hnone. destruct (Hnone c0); [|done].
      apply list_elem_of_lookup. eauto. }
    intros i c Hl Hk Hmin.
    assert (Z.of_nat i = i0) as Hi.
    { pose proof (lookup_lt_Some _ _ _ Hl) as Hlt.
      destruct (Z.lt_trichotomy (Z.of_nat i) i0) as [Hc1|[Hc1|Hc2]];
        [|done|].
      - destruct (Hmin0 (Z.of_nat i) ltac:(lia) c); [|done].
        by rewrite Nat2Z.id.
      - by destruct (Hmin (Z.to_nat i0) c0 ltac:(lia) Hl0). }
    cbv zeta. rewrite Hi, <- Hidx.
    assert (c = c0) as -> by (rewrite <- Hi, Nat2Z.id in Hl0; congruence).
    split; [done|].
    destruct (improved_search_found a V answer now key idx E T Ef)
      as (c1 & Hcell1 & _ & _ & Ex).
    rewrite Hcell0 in Hcell1. by injection Hcell1 as <-.
  - split.
    { intros _. by apply improved_search_missing. }
    intros i c Hl Hk _. exfalso.
    rewrite (repr_find _ _ R) in Ef. injection Ef as Ef.
    destruct (list_find _ _) as [[??]|] eqn:Efind; [done|].
    pose proof (lookup_lt_Some _ _ _ Hl) as Hlt.
    apply list_find_range_None with (i := Z.of_nat i) in Efind; [|lia].
    apply Efind. rewrite Nat2Z.id, Hl. cbn. by apply bool_decide_eq_true.
Qed.

Lemma search_by_id_shows_first_witness :
  ∃ l : list car,
    Improved.content_list wrapped_queue = (Ok (Some <$> l), wrapped_queue) ∧
    ((∀ c, c ∈ l → car_id c ≠ "KA02CD5678") →
     ImprovedApp.search_by_id (Some "KA02CD5678") 70
       {| queue := wrapped_queue; tk := [] |}
     = (Ok tt,
        {| queue := wrapped_queue;
           tk := [] ++
                 [askstring "Search" "Enter car ID to search:";
                  showinfo "Not found"
                    ("Car " +:+ "KA02CD5678" +:+ " not found.")] |})) ∧
    (∀ (i : nat) c,
       l !! i = Some c → car_id c = "KA02CD5678" →
       (∀ (i' : nat) c', (i' < i)%nat → l !! i' = Some c' →
                         car_id c' ≠ "KA02CD5678") →
       let idx := (2 + Z.of_nat i) mod 4 in
       data wrapped_queue !! Z.to_nat idx = Some (Some c) ∧
       ImprovedApp.search_by_id (Some "KA02CD5678") 70
         {| queue := wrapped_queue; tk := [] |}
       = (Ok tt,
          {| queue := wrapped_queue;
             tk := [] ++
                   [askstring "Search" "Enter car ID to search:";
                    details_set_car idx c 70; animate_highlight idx] |})).
Proof.
  apply (search_by_id_shows_first {| queue := wrapped_queue; tk := [] |}
           (Some "KA02CD5678") "KA02CD5678" 70);
    [reflexivity|discriminate|reflexivity].
Defined.

(** ** Clearing and the dashboard *)

(** X15. "Clear" keeps the capacity the queue had: on a well-formed
    queue, both applications replace it by an empty queue of the same
    capacity, every cell empty and [front] at 0 ([ImprovedApp] only once
    the user has confirmed; on a refusal the queue is left alone). *)
Theorem clear_all_keeps_capacity (a : App) :
  valid (queue a) = true →
  let empty_queue :=
    Queue (capacity (queue a)) (none_list (capacity (queue a))) 0 0 in
  (∃ cs, ImprovedApp.clear_all true a
         = (Ok tt,
            {| queue := empty_queue;
               tk := tk a ++
                     askyesno "Confirm" "Clear all parked cars?"
                     :: draw_slots :: cs |})) ∧
  ImprovedApp.clear_all false a
  = (Ok tt,
     {| queue := queue a;
        tk := tk a ++ [askyesno "Confirm" "Clear all parked cars?"] |}) ∧
  (∃ cs, BasicApp.clear_all a
         = (Ok tt,
            {| queue := empty_queue; tk := tk a ++ draw_slots :: cs |})) ∧
  Improved.content_list empty_queue = (Ok [], empty_queue) ∧
  valid empty_queue = true.
Proof.
  intros V q0. pose proof (valid_repr _ V) as (Hc & _).
  assert (Improved.init (capacity (queue a)) = q0) as Hinit.
  { unfold Improved.init, q0. by rewrite Z.max_r by lia. }
  split; [|split; [|split; [|split]]].
  - destruct (improved_clear_run a) as (cs & E & _).
    rewrite Hinit in E. by exists cs.
  - unfold ImprovedApp.clear_all. ui_run. cbn [negb]. by ui_end.
  - unfold BasicApp.clear_all. ui_run.
    change (Basic.init (capacity (queue a)))
      with (Improved.init (capacity (queue a))).
    rewrite Hinit.
    destruct (basic_dashboard_calm
                {| queue := q0; tk := tk a ++ [draw_slots] |})
      as (cs & -> & _).
    cbn [queue tk]. rewrite <- app_assoc. by exists cs.
  - apply (repr_content_list q0 []), repr_fresh, Hc.
  - apply repr_valid with [], repr_fresh, Hc.
Qed.

Lemma clear_all_keeps_capacity_witness :
  let a := {| queue := busy_queue; tk := [] |} in
  let empty_queue := Queue 6 (none_list 6) 0 0 in
  (∃ cs, ImprovedApp.clear_all true a
         = (Ok tt,
            {| queue := empty_queue;
               tk := tk a ++
                     askyesno "Confirm" "Clear all parked cars?"
                     :: draw_slots :: cs |})) ∧
  ImprovedApp.clear_all false a
  = (Ok tt,
     {| queue := queue a;
        tk := tk a ++ [askyesno "Confirm" "Clear all parked cars?"] |}) ∧
  (∃ cs, BasicApp.clear_all a
         = (Ok tt,
            {| queue := empty_queue; tk := tk a ++ draw_slots :: cs |})) ∧
  Improved.content_list empty_queue = (Ok [], empty_queue) ∧
  valid empty_queue = true.
Proof.
  intros a. apply (clear_all_keeps_capacity a). reflexivity.
Defined.

Lemma free_cells_occupied d :
  free_cells d = Z.of_nat (length d) - occupied_count d.
Proof.
  unfold free_cells. induction d as [|s d IH]; [done|].
  rewrite occupied_count_cons. cbn [length]. destruct s as [c|].
  - rewrite filter_cons_False by done. lia.
  - rewrite filter_cons_True by done. cbn [length]. lia.
Qed.

(** X16. What the dashboard of [ImprovedApp] shows for a well-formed queue:
    the occupancy is the number of parked cars, "Free Slots" is the number
    of empty cells of the array, and, when a car is parked, "Front" and
    "Rear" are the cells holding the first and the last car of the logical
    sequence (both "-" on an empty queue).  The queue is not changed. *)
Theorem dashboard_reads_queue (a : App) :
  valid (queue a) = true →
  let q := queue a in
  let rear := (front q + size q - 1) mod capacity q in
  ∃ l : list car,
    Improved.content_list q = (Ok (Some <$> l), q) ∧
    ImprovedApp.update_dashboard a
    = (Ok tt,
       {| queue := q;
          tk := tk a ++
            [ label_config "occ_label"
                ("Occupancy: " +:+ pretty (Z.of_nat (length l)) +:+ " / "
                 +:+ pretty (capacity q));
              label_config "ptr_label"
                ("Front: "
                 +:+ (if size q =? 0 then "-" else pretty (front q))
                 +:+ "    Rear: "
                 +:+ (if size q =? 0 then "-" else pretty rear));
              label_config "free_label"
                ("Free Slots: " +:+ pretty (free_cells (data q)));
              redraw_cars ] |}) ∧
    (size q ≠ 0 →
     0 ≤ rear < capacity q ∧
     data q !! Z.to_nat (front q) = Some (head l) ∧
     data q !! Z.to_nat rear = Some (last l) ∧
     is_Some (head l) ∧ is_Some (last l)).
Proof.
  intros V. cbv zeta. set (q := queue a) in *.
  pose proof (valid_repr _ V) as R.
  pose proof (proj1 (valid_inv _) V) as I.
  pose proof R as (Hc & Hlen & Hf & Hs & Hsc & Hd).
  exists (contents q). split; [by apply repr_content_list|]. split.
  - rewrite improved_dashboard_run by (fold q; lia). fold q.
    rewrite free_cells_occupied, (inv_count q I), Hlen.
    by rewrite <- Hs.
  - intros Hne.
    split; [apply ring_range; lia|].
    pose proof (repr_cell q _ R 0 ltac:(lia)) as H0.
    rewrite Z.add_0_r, Z.mod_small in H0 by lia.
    pose proof (repr_cell q _ R (size q - 1) ltac:(lia)) as H1.
    replace (front q + (size q - 1)) with (front q + size q - 1) in H1
      by lia.
    rewrite head_lookup, last_lookup.
    replace (Init.Nat.pred (length (contents q)))
      with (Z.to_nat (size q - 1)) by lia.
    split; [done|]. split; [done|].
    split; apply lookup_lt_is_Some; lia.
Qed.

Lemma dashboard_reads_queue_witness :
  ∃ l : list car,
    Improved.content_list wrapped_queue = (Ok (Some <$> l), wrapped_queue) ∧
    ImprovedApp.update_dashboard {| queue := wrapped_queue; tk := [] |}
    = (Ok tt,
       {| queue := wrapped_queue;
          tk := [] ++
            [ label_config "occ_label"
                ("Occupancy: " +:+ pretty (Z.of_nat (length l)) +:+ " / "
                 +:+ pretty 4);
              label_config "ptr_label"
                ("Front: " +:+ pretty 2 +:+ "    Rear: "
                 +:+ pretty ((2 + 3 - 1) mod 4));
              label_config "free_label"
                ("Free Slots: " +:+ pretty (free_cells (data wrapped_queue)));
              redraw_cars ] |}) ∧
    (size wrapped_queue ≠ 0 →
     0 ≤ (2 + 3 - 1) mod 4 < 4 ∧
     data wrapped_queue !! Z.to_nat 2 = Some (head l) ∧
     data wrapped_queue !! Z.to_nat ((2 + 3 - 1) mod 4) = Some (last l) ∧
     is_Some (head l) ∧ is_Some (last l)).
Proof.
  apply (dashboard_reads_queue {| queue := wrapped_queue; tk := [] |}).
  reflexivity.
Defined.

(** ** Parking, then looking the car up *)

(** X19. Insert and look up: after [enqueue] has put a car into a
    well-formed, not full queue, [find_index_by_id] with that car's id
    returns the cell the car was written to if no car with the same id was
    parked before, and otherwise still returns the cell of the earliest
    such car, exactly as before the [enqueue]. *)
Theorem enqueue_then_find (q : CircularQueue) (c : car) :
  valid q = true → size q ≠ capacity q →
  ∃ (l : list car) (r : option Z) q',
    Improved.content_list q = (Ok (Some <$> l), q) ∧
    Improved.find_index_by_id (car_id c) q = (Ok r, q) ∧
    Improved.enqueue (Some c) q = (Ok tt, q') ∧
    Improved.find_index_by_id (car_id c) q'
    = (Ok (Some (default ((front q + size q) mod capacity q) r)), q') ∧
    (r = None ↔ ∀ c', c' ∈ l → car_id c' ≠ car_id c).
Proof.
  intros V Hnf. pose proof (valid_repr q V) as R.
  pose proof R as (Hc & Hlen & Hf & Hs & Hsc & Hd).
  destruct (repr_enqueue q _ R c) as (q' & E & R' & Hc' & Hf'); [lia|].
  pose proof R' as (_ & _ & _ & Hs' & _).
  rewrite length_app in Hs'. cbn in Hs'.
  exists (contents q). eexists. exists q'.
  split; [by apply repr_content_list|].
  split; [by apply repr_find|]. split; [done|].
  rewrite (repr_find q' _ R'), Hc', Hf'.
  destruct (list_find _ (range (size q))) as [[k i]|] eqn:Eold.
  - apply list_find_range in Eold as (-> & Hi & HP & Hmin).
    split.
    + f_equal. f_equal. cbn.
      assert (list_find
                (λ i, id_is (car_id c)
                        ((contents q ++ [c]) !! Z.to_nat i) = true)
                (range (size q'))
              = Some (k, Z.of_nat k)) as ->; [|done].
      apply list_find_Some. split; [apply lookup_range; lia|]. split.
      * by rewrite lookup_app_l by lia.
      * intros j y Hj Hlt. pose proof (lookup_lt_Some _ _ _ Hj) as Hjl.
        rewrite length_range in Hjl. rewrite lookup_range in Hj by lia.
        injection Hj as <-. rewrite lookup_app_l by lia.
        apply (Hmin (Z.of_nat j)). lia.
    + split; [done|]. intros Hnone. exfalso.
      destruct (contents q !! Z.to_nat (Z.of_nat k)) as [c0|] eqn:Hl; [|done].
      cbn in HP. apply bool_decide_eq_true in HP.
      destruct (Hnone c0); [|done]. apply list_elem_of_lookup. eauto.
  - pose proof (list_find_range_None _ _ Eold) as Hnone.
    split.
    + f_equal. f_equal. cbn.
      assert (list_find
                (λ i, id_is (car_id c)
                        ((contents q ++ [c]) !! Z.to_nat i) = true)
                (range (size q'))
              = Some (length (contents q), size q)) as ->; [|done].
      apply list_find_Some. split; [rewrite lookup_range by lia; f_equal; lia|].
      split.
      * rewrite Hs, Nat2Z.id, lookup_app_r, Nat.sub_diag by lia.
        cbn. by apply bool_decide_eq_true.
      * intros j y Hj Hlt. pose proof (lookup_lt_Some _ _ _ Hj) as Hjl.
        rewrite length_range in Hjl. rewrite lookup_range in Hj by lia.
        injection Hj as <-. rewrite lookup_app_l by lia.
        apply (Hnone (Z.of_nat j)). lia.
    + split; [|done]. intros _ c' (i & Hl)%list_elem_of_lookup Hkey.
      pose proof (lookup_lt_Some _ _ _ Hl) as Hlt.
      apply (Hnone (Z.of_nat i)); [lia|].
      rewrite Nat2Z.id, Hl. cbn. by apply bool_decide_eq_true.
Qed.

Lemma enqueue_then_find_witness :
  ∃ (l : list car) (r : option Z) q',
    Improved.content_list wrapped_queue = (Ok (Some <$> l), wrapped_queue) ∧
    Improved.find_index_by_id (car_id car_d) wrapped_queue
    = (Ok r, wrapped_queue) ∧
    Improved.enqueue (Some car_d) wrapped_queue = (Ok tt, q') ∧
    Improved.find_index_by_id (car_id car_d) q'
    = (Ok (Some (default ((2 + 3) mod 4) r)), q') ∧
    (r = None ↔ ∀ c', c' ∈ l → car_id c' ≠ car_id car_d).
Proof.
  apply (enqueue_then_find wrapped_queue car_d); [reflexivity|discriminate].
Defined.

(** X20. Making room: after [resize_preserve] to a capacity greater than
    the number of parked cars, a well-formed queue is not full, so the next
    [enqueue] returns, and the logical sequence is the old one followed by
    the new car. *)
Theorem resize_then_enqueue (q : CircularQueue) (n : Z) (c : car) :
  valid q = true → size q < n →
  ∃ (l : list car) q1 q2,
    Improved.content_list q = (Ok (Some <$> l), q) ∧
    Improved.resize_preserve n q = (Ok tt, q1) ∧
    Improved.is_full q1 = (Ok false, q1) ∧
    Improved.enqueue (Some c) q1 = (Ok tt, q2) ∧
    Improved.content_list q2 = (Ok (Some <$> (l ++ [c])), q2) ∧
    capacity q2 = Z.max 4 n.
Proof.
  intros V Hlt. pose proof (valid_repr q V) as R.
  pose proof R as (Hc & Hlen & Hf & Hs & Hsc & Hd).
  destruct (repr_resize q _ R n) as (q1 & E1 & R1 & Hf1 & Hc1).
  rewrite take_ge in R1 by lia.
  pose proof R1 as (_ & _ & _ & Hs1 & _).
  destruct (repr_enqueue q1 _ R1 c) as (q2 & E2 & R2 & Hc2 & _); [lia|].
  exists (contents q), q1, q2.
  split; [by apply repr_content_list|]. split; [done|].
  split.
  { unfold Improved.is_full, bind, get, ret.
    destruct (Z.eqb_spec (size q1) (capacity q1)); [lia|done]. }
  split; [done|]. split; [by apply repr_content_list|lia].
Qed.

Lemma resize_then_enqueue_witness :
  ∃ (l : list car) q1 q2,
    Improved.content_list full_queue = (Ok (Some <$> l), full_queue) ∧
    Improved.resize_preserve 6 full_queue = (Ok tt, q1) ∧
    Improved.is_full q1 = (Ok false, q1) ∧
    Improved.enqueue (Some car_e) q1 = (Ok tt, q2) ∧
    Improved.content_list q2 = (Ok (Some <$> (l ++ [car_e])), q2) ∧
    capacity q2 = Z.max 4 6.
Proof.
  apply (resize_then_enqueue full_queue 6 car_e); [reflexivity|cbn; lia].
Defined.
